(** * order-whisperer: session, deduplication and route-guard logic

    A shallow embedding of the client-side orchestration code of the
    restaurant point-of-sale application:

    - [utils/promise.ts]: the timeout wrapper [withTimeout];
    - [hooks/useRequestDeduplication.tsx]: the in-flight request cache, in
      its promise-sharing form and in its polling form;
    - [hooks/useAuth.tsx]: the authentication context, in its two forms
      (inline tenant lookup, and the [resolveTenant] effect);
    - [pages/POSSystem.tsx]: the premium-gated page, in its two forms.

    JavaScript promises are modelled by their settlement state; the event
    loop by the list of tasks it runs, in the order it runs them. *)

From stdpp Require Import base gmap sets list strings.
From Stdlib Require Import ZArith Lia.

Open Scope string_scope.
Open Scope list_scope.

(** ** Promises *)

(** How a promise ends: fulfilled with a value or rejected with a reason. *)
Inductive outcome (V E : Type) : Type :=
| Fulfilled (v : V)
| Rejected (e : E).
Arguments Fulfilled {V E} v.
Arguments Rejected {V E} e.

Inductive pstate (V E : Type) : Type :=
| Pending
| Settled (o : outcome V E).
Arguments Pending {V E}.
Arguments Settled {V E} o.

(** A promise settles once: later calls of its [resolve] or [reject] are
  ignored. *)
Definition settle {V E} (o : outcome V E) (p : pstate V E) : pstate V E :=
  match p with
  | Pending => Settled o
  | Settled o' => Settled o'
  end.

(** Reactions attached to a promise, as functions of the outcome of the
  promise they are attached to and of the state [S] their callbacks act
  on.  Each returns the outcome of the derived promise. *)
Section Reactions.
Context {A E S : Type}.

(** [p.then(onFulfilled)] with a callback that returns [undefined]. *)
Definition then_ (onFulfilled : A → S → S)
    (o : outcome A E) (s : S) : outcome () E * S :=
  match o with
  | Fulfilled v => (Fulfilled (), onFulfilled v s)
  | Rejected e => (Rejected e, s)
  end.

(** [p.catch(onRejected)] with a callback that returns [undefined]. *)
Definition catch_ (onRejected : E → S → S)
    (o : outcome () E) (s : S) : outcome () E * S :=
  match o with
  | Fulfilled v => (Fulfilled v, s)
  | Rejected e => (Fulfilled (), onRejected e s)
  end.

(** [p.finally(onFinally)]: the callback runs on either outcome, which is
    passed through. *)
Definition finally_ (onFinally : S → S)
    (o : outcome () E) (s : S) : outcome () E * S :=
  (o, onFinally s).
End Reactions.

(** ** utils/promise.ts: [withTimeout] *)

Module WithTimeout.
Section WithTimeout.
Context {V E : Type}.

(** The handle returned by [setTimeout]. *)
Inductive timer : Type :=
| Armed (delay : Z)
| Cleared
| Fired.

(** What the call [withTimeout(promise, ms, timeoutError)] owns: the
    promise it returns, the timer it started, and the promise it was
    given. *)
Record state : Type := mkState {
  wrapper : pstate V E;
  timeoutId : timer;
  promise : pstate V E;
}.

Definition resolve (v : V) (s : state) : state :=
  mkState (settle (Fulfilled v) (wrapper s)) (timeoutId s) (promise s).

Definition reject (e : E) (s : state) : state :=
  mkState (settle (Rejected e) (wrapper s)) (timeoutId s) (promise s).

Definition clearTimeout (s : state) : state :=
  mkState (wrapper s)
          (match timeoutId s with Armed _ => Cleared | t => t end)
          (promise s).

(** The executor: [setTimeout(() => reject(timeoutError), ms)], then the
    reactions are attached to [promise]. *)
Definition withTimeout (ms : Z) : state :=
  mkState Pending (Armed ms) Pending.

(** The timer callback. *)
Definition on_timeout (timeoutError : E) (s : state) : state :=
  reject timeoutError s.

(** [promise.then(resolve).catch(reject).finally(() => clearTimeout(timeoutId))],
    run when [promise] has settled with [o]. *)
Definition on_settled (o : outcome V E) (s : state) : state :=
  let '(o1, s1) := then_ resolve o s in
  let '(o2, s2) := catch_ reject o1 s1 in
  let '(_, s3) := finally_ clearTimeout o2 s2 in
  s3.

(** The two tasks of the event loop that concern the wrapper. *)
Inductive event : Type :=
| OpSettles (o : outcome V E)
| TimerFires.

Definition step (timeoutError : E) (ev : event) (s : state) : state :=
  match ev with
  | OpSettles o =>
      match promise s with
      | Pending =>
          on_settled o (mkState (wrapper s) (timeoutId s) (Settled o))
      | Settled _ => s
      end
  | TimerFires =>
      match timeoutId s with
      | Armed _ =>
          on_timeout timeoutError (mkState (wrapper s) Fired (promise s))
      | _ => s
      end
  end.

Definition run (timeoutError : E) (evs : list event) (s : state) : state :=
  foldl (λ s ev, step timeoutError ev s) s evs.

(** *** Properties *)

Lemma wrapper_step_stable timeoutError ev s o :
  wrapper s = Settled o → wrapper (step timeoutError ev s) = Settled o.
Proof.
  intros Hw. destruct ev as [o'|]; simpl.
  - destruct (promise s); [|done].
    destruct o'; unfold on_settled; simpl; by rewrite Hw.
  - destruct (timeoutId s); try done. simpl. by rewrite Hw.
Qed.

Lemma wrapper_run_stable timeoutError evs s o :
  wrapper s = Settled o → wrapper (run timeoutError evs s) = Settled o.
Proof.
  revert s. induction evs as [|ev evs IH]; intros s Hw; [done|].
  simpl. apply IH. by apply wrapper_step_stable.
Qed.

(** Once [promise] has settled the timer is no longer armed: it was
    cleared, or it had fired before. *)
Lemma step_timer_disarmed timeoutError o s :
  promise s = Pending →
  ∀ d, timeoutId (step timeoutError (OpSettles o) s) ≠ Armed d.
Proof.
  intros Hp d. simpl. rewrite Hp.
  destruct o; unfold on_settled; simpl; destruct (timeoutId s); done.
Qed.

(** After either event the wrapper is settled: awaiting it returns. *)
Lemma withTimeout_settles (ms : Z) timeoutError ev rest :
  wrapper (run timeoutError (ev :: rest) (withTimeout ms)) ≠ Pending.
Proof.
  destruct ev as [o|]; simpl.
  - erewrite wrapper_run_stable; [done|]. by destruct o.
  - erewrite wrapper_run_stable; done.
Qed.

(** Whichever of the operation and the timer comes first decides the
    wrapper, whatever follows: the timer first gives a rejection with
    exactly the supplied error, the operation first gives the operation's
    own outcome, fulfilled or rejected. *)
Theorem withTimeout_first_settler_wins (ms : Z) (timeoutError : E) :
  (∀ rest,
      wrapper (run timeoutError (TimerFires :: rest) (withTimeout ms))
      = Settled (Rejected timeoutError)) ∧
  (∀ o rest,
      wrapper (run timeoutError (OpSettles o :: rest) (withTimeout ms))
      = Settled o).
Proof.
  split.
  - intros rest. simpl. by apply wrapper_run_stable.
  - intros o rest. simpl. apply wrapper_run_stable. by destruct o.
Qed.

(** *** The deadline *)

Local Open Scope Z_scope.










End WithTimeout.



End WithTimeout.

(** ** hooks/useRequestDeduplication.tsx: the in-flight request cache *)

Module Dedup.

(** The caller's [requestFn], seen from the cache: a label to tell the
    functions apart in the invocation log, and what a call of it does.  It
    either throws before it returns, or returns a new promise, which the
    backend settles later.  It does not call the cache itself. *)
Record requestFn (E : Type) : Type := mkFn {
  fn_id : nat;
  fn_throws : option E;
}.
Arguments mkFn {E} fn_id fn_throws.
Arguments fn_id {E} r.
Arguments fn_throws {E} r.

(** Tasks of the event loop.  [OpSettles n o] settles the promise returned
    by the [n]-th invocation of a [requestFn]; [Microtask p] runs the
    reaction that produces promise [p]; the last two are the timers of the
    polling form. *)
Inductive event (V E : Type) : Type :=
| Call (key : string) (fn : requestFn E)
| OpSettles (n : nat) (o : outcome V E)
| Microtask (p : nat)
| IntervalTick (i : nat)
| TimeoutFires (t : nat).
Arguments Call {V E} key fn.
Arguments OpSettles {V E} n o.
Arguments Microtask {V E} p.
Arguments IntervalTick {V E} i.
Arguments TimeoutFires {V E} t.

(** *** The promise-sharing form *)

Module Sharing.
Section Sharing.
Context {V E : Type}.

(** Where a promise of the heap comes from. *)
Inductive kind : Type :=
| KOp (n : nat)
    (* returned by the n-th invocation of a requestFn *)
| KFinally (src : nat) (key : string) (ran : bool)
    (* src.finally(() => activeRequests.current.delete(key)) *)
| KAsync (src : nat)
    (* the promise of the async function, resolved with promise src *)
| KThrown.
    (* the promise of the async function, when requestFn() threw *)

Record cell : Type := mkCell {
  ckind : kind;
  cstate : pstate V E;
}.

Record state : Type := mkState {
  activeRequests : gmap string nat;
  heap : list cell;
  invoked : list (string * nat);
}.

Definition init : state := mkState ∅ [] [].

Definition alloc (c : cell) (s : state) : nat * state :=
  (length (heap s), mkState (activeRequests s) (heap s ++ [c]) (invoked s)).

Definition executeRequest (key : string) (fn : requestFn E) (s : state)
  : nat * state :=
  match activeRequests s !! key with
  | Some existingRequest =>
      alloc (mkCell (KAsync existingRequest) Pending) s
  | None =>
      let n := length (invoked s) in
      let s := mkState (activeRequests s) (heap s)
                       (invoked s ++ [(key, fn_id fn)]) in
      match fn_throws fn with
      | Some e => alloc (mkCell KThrown (Settled (Rejected e))) s
      | None =>
          let '(p, s) := alloc (mkCell (KOp n) Pending) s in
          let '(newRequestPromise, s) :=
            alloc (mkCell (KFinally p key false) Pending) s in
          let s := mkState (<[key := newRequestPromise]> (activeRequests s))
                           (heap s) (invoked s) in
          alloc (mkCell (KAsync newRequestPromise) Pending) s
      end
  end.

Definition settle_cell (n : nat) (o : outcome V E) (c : cell) : cell :=
  match ckind c with
  | KOp m => if decide (m = n) then mkCell (ckind c) (settle o (cstate c)) else c
  | _ => c
  end.

Definition settle_op (n : nat) (o : outcome V E) (s : state) : state :=
  mkState (activeRequests s) (settle_cell n o <$> heap s) (invoked s).

Definition source_outcome (s : state) (src : nat) : option (outcome V E) :=
  match heap s !! src with
  | Some (mkCell _ (Settled o)) => Some o
  | _ => None
  end.

Definition set_cell (p : nat) (c : cell) (s : state) : state :=
  mkState (activeRequests s) (<[p := c]> (heap s)) (invoked s).

(** The reaction job of promise [p], if its source has settled: the
    [finally] callback first, which evicts the key, then the settlement of
    the derived promise with the outcome of its source. *)
Definition microtask (p : nat) (s : state) : state :=
  match heap s !! p with
  | Some (mkCell (KFinally src key false) Pending) =>
      match source_outcome s src with
      | Some _ =>
          mkState (delete key (activeRequests s))
                  (<[p := mkCell (KFinally src key true) Pending]> (heap s))
                  (invoked s)
      | None => s
      end
  | Some (mkCell (KFinally src key true) Pending) =>
      match source_outcome s src with
      | Some o => set_cell p (mkCell (KFinally src key true) (Settled o)) s
      | None => s
      end
  | Some (mkCell (KAsync src) Pending) =>
      match source_outcome s src with
      | Some o => set_cell p (mkCell (KAsync src) (Settled o)) s
      | None => s
      end
  | _ => s
  end.

Definition step (ev : event V E) (s : state) : state :=
  match ev with
  | Call key fn => (executeRequest key fn s).2
  | OpSettles n o => settle_op n o s
  | Microtask p => microtask p s
  | IntervalTick _ | TimeoutFires _ => s
  end.

Definition run (evs : list (event V E)) (s : state) : state :=
  foldl (λ s ev, step ev s) s evs.

(** Promise [p] has settled with [o]; promise [p] is pending. *)
Definition settled (s : state) (p : nat) (o : outcome V E) : Prop :=
  cstate <$> heap s !! p = Some (Settled o).

Definition pending (s : state) (p : nat) : Prop :=
  cstate <$> heap s !! p = Some Pending.

(** How often a [requestFn] was invoked for [key]. *)
Definition invocations_of (key : string) (s : state) : nat :=
  length (filter (λ x, x.1 = key) (invoked s)).

Definition source (k : kind) : option nat :=
  match k with
  | KFinally src _ _ | KAsync src => Some src
  | KOp _ | KThrown => None
  end.

Definition source_of (s : state) (p : nat) : option nat :=
  heap s !! p ≫= λ c, source (ckind c).

Definition kind_of (s : state) (q : nat) : option kind :=
  ckind <$> heap s !! q.

(** *** Invariants of the promise-sharing form *)

(** The heap after a call extends the heap before it. *)
Lemma executeRequest_heap key fn s :
  ∃ new, heap (executeRequest key fn s).2 = heap s ++ new ∧
         ∀ c, c ∈ new → cstate c = Pending ∨ source (ckind c) = None.
Proof.
  unfold executeRequest.
  destruct (activeRequests s !! key) as [f|]; simpl.
  - eexists [_]; split; [done|]. intros c ->%list_elem_of_singleton. by left.
  - destruct (fn_throws fn) as [e|]; simpl.
    + eexists [_]; split; [done|].
      intros c ->%list_elem_of_singleton. by right.
    + rewrite <- !app_assoc. eexists; split; [done|].
      intros c Hc. left.
      repeat (apply elem_of_cons in Hc as [->|Hc]; [done|]).
      by apply elem_of_nil in Hc.
Qed.

(** The only change of kind is a [finally] callback having run. *)
Definition kind_evolves (k k' : kind) : Prop :=
  k' = k ∨ ∃ src key, k = KFinally src key false ∧ k' = KFinally src key true.

Lemma kind_evolves_source k k' : kind_evolves k k' → source k' = source k.
Proof. by intros [->|(src & key & -> & ->)]. Qed.

(** A settled cell is never changed again, and a step changes the kind of
    a cell in that one way only. *)
Lemma step_cell ev s q c :
  heap s !! q = Some c →
  ∃ c', heap (step ev s) !! q = Some c' ∧
        kind_evolves (ckind c) (ckind c') ∧
        (∀ o, cstate c = Settled o → c' = c).
Proof.
  intros Hq.
  assert (Hsame : ∃ c', heap s !! q = Some c' ∧
            kind_evolves (ckind c) (ckind c') ∧
            (∀ o, cstate c = Settled o → c' = c))
    by (exists c; split; [done|split; [by left|done]]).
  destruct ev as [key fn|n o|p|i|t]; simpl; try exact Hsame.
  - destruct (executeRequest_heap key fn s) as (new & -> & _).
    exists c. split; [by apply lookup_app_l_Some|]. split; [by left|done].
  - exists (settle_cell n o c). rewrite list_lookup_fmap, Hq. split; [done|].
    unfold settle_cell. destruct c as [k st]; simpl.
    destruct k; try (split; [by left|done]).
    case_decide; (split; [by left|]); [|done]. by intros o' ->.
  - unfold microtask.
    destruct (heap s !! p) as [[k st]|] eqn:Hp; [|exact Hsame].
    destruct k as [n|src key [|]|src|], st as [|o']; try exact Hsame.
    1-3: destruct (source_outcome s src); simpl; [|exact Hsame].
    all: destruct (decide (p = q)) as [->|Hne];
        [ rewrite list_lookup_insert_eq by (by eapply lookup_lt_Some);
          rewrite Hq in Hp; injection Hp as ->; eexists; split; [done|];
          split; [|by intros o' [=]]
        | rewrite list_lookup_insert_ne by done; exact Hsame ].
    1,3: by left.
    right. by exists src, key.
Qed.

Lemma step_settled s ev p o : settled s p o → settled (step ev s) p o.
Proof.
  unfold settled. intros H.
  destruct (heap s !! p) as [c|] eqn:Hp; [|done]. simpl in H.
  destruct (step_cell ev s p c Hp) as (c' & -> & _ & Hc).
  injection H as H. rewrite (Hc _ H). simpl. by rewrite H.
Qed.

Lemma run_settled evs s p o : settled s p o → settled (run evs s) p o.
Proof.
  revert s. induction evs as [|ev evs IH]; intros s H; [done|].
  simpl. by apply IH, step_settled.
Qed.

Lemma step_source_of s ev p src :
  source_of s p = Some src → source_of (step ev s) p = Some src.
Proof.
  unfold source_of. intros H.
  destruct (heap s !! p) as [c|] eqn:Hp; [|done]. simpl in H.
  destruct (step_cell ev s p c Hp) as (c' & -> & Hs%kind_evolves_source & _).
  simpl. congruence.
Qed.

Lemma run_source_of evs s p src :
  source_of s p = Some src → source_of (run evs s) p = Some src.
Proof.
  revert s. induction evs as [|ev evs IH]; intros s H; [done|].
  simpl. by apply IH, step_source_of.
Qed.

(** A [finally] promise whose callback has not run yet is the cache entry
    of its key. *)
Definition registered (s : state) : Prop :=
  ∀ q src key st,
    heap s !! q = Some (mkCell (KFinally src key false) st) →
    activeRequests s !! key = Some q.

(** A settled derived promise carries the outcome of its source. *)
Definition follows (s : state) : Prop :=
  ∀ q c o src,
    heap s !! q = Some c → cstate c = Settled o →
    source (ckind c) = Some src → settled s src o.

Lemma registered_init : registered init.
Proof. intros q src key st H. by destruct q. Qed.

Lemma registered_step ev s : registered s → registered (step ev s).
Proof.
  intros Hreg. destruct ev as [key fn|n o|p|i|t]; simpl; try exact Hreg.
  - unfold executeRequest.
    destruct (activeRequests s !! key) as [f|] eqn:Hk; simpl.
    + intros q src key' st [Hq|[_ Hq]]%lookup_app_Some; [by eapply Hreg|].
      by destruct (q - length (heap s)) as [|[|]].
    + destruct (fn_throws fn) as [e|]; simpl.
      * intros q src key' st [Hq|[_ Hq]]%lookup_app_Some; [by eapply Hreg|].
        by destruct (q - length (heap s)) as [|[|]].
      * rewrite <- !app_assoc. simpl.
        intros q src key' st [Hq|[Hle Hq]]%lookup_app_Some.
        -- pose proof (Hreg _ _ _ _ Hq) as Hk'. simpl.
           rewrite lookup_insert_ne; [done|]. intros ->. congruence.
        -- destruct (q - length (heap s)) as [|[|[|]]] eqn:Hd; try done.
           injection Hq as <- <- <-. simpl.
           rewrite length_app. simpl.
           replace (length (heap s) + 1) with q by lia.
           apply lookup_insert_eq.
  - intros q src key st Hq. unfold settle_op in Hq. simpl in *.
    rewrite list_lookup_fmap in Hq.
    destruct (heap s !! q) as [[k st']|] eqn:Hq'; [|done].
    simpl in Hq. unfold settle_cell in Hq. simpl in Hq.
    destruct k; try case_decide; simplify_eq; by eapply Hreg.
  - unfold microtask.
    destruct (heap s !! p) as [[k st]|] eqn:Hp; [|exact Hreg].
    destruct k as [n|src key [|]|src|], st as [|o']; try exact Hreg.
    1-3: destruct (source_outcome s src); simpl; [|exact Hreg].
    all: intros q src' key' st' Hq; simpl in *.
    all: destruct (decide (p = q)) as [->|Hne];
      [ rewrite list_lookup_insert_eq in Hq by (by eapply lookup_lt_Some);
        by simplify_eq
      | rewrite list_lookup_insert_ne in Hq by done ].
    1,3: by eapply Hreg.
    pose proof (Hreg _ _ _ _ Hq) as Hk'. pose proof (Hreg _ _ _ _ Hp) as Hk.
    rewrite lookup_delete_ne; [done|]. intros ->. congruence.
Qed.

Lemma registered_run evs s : registered s → registered (run evs s).
Proof.
  revert s. induction evs as [|ev evs IH]; intros s H; [done|].
  simpl. by apply IH, registered_step.
Qed.

(** A cell that is settled after a step was settled before it, or its
    source was. *)
Lemma step_settled_back ev s q c o src :
  heap (step ev s) !! q = Some c → cstate c = Settled o →
  source (ckind c) = Some src →
  heap s !! q = Some c ∨ settled s src o.
Proof.
  intros Hq Hst Hsrc. destruct ev as [key fn|n o'|p|i|t]; simpl in *; auto.
  - destruct (executeRequest_heap key fn s) as (new & Hh & Hnew).
    rewrite Hh in Hq. apply lookup_app_Some in Hq as [Hq|[_ Hq]]; [by left|].
    apply list_elem_of_lookup_2, Hnew in Hq as [Hq|Hq]; congruence.
  - rewrite list_lookup_fmap in Hq.
    destruct (heap s !! q) as [[k st]|] eqn:Hq'; [|done].
    simpl in Hq. unfold settle_cell in Hq. simpl in Hq. left.
    destruct k; try case_decide; by simplify_eq.
  - unfold microtask in Hq.
    destruct (heap s !! p) as [[k st]|] eqn:Hp; [|by left].
    destruct k as [n|src' key [|]|src'|], st as [|o']; try by left.
    1-3: unfold source_outcome in Hq;
      destruct (heap s !! src') as [[k' [|o'']]|] eqn:Hs; try by left.
    all: simpl in Hq; destruct (decide (p = q)) as [->|Hne];
      [ rewrite list_lookup_insert_eq in Hq by (by eapply lookup_lt_Some)
      | rewrite list_lookup_insert_ne in Hq by done; by left ].
    all: simplify_eq; simpl in *; simplify_eq.
    all: right; unfold settled; by rewrite Hs.
Qed.

Lemma follows_init : follows init.
Proof. intros q c o src H. by destruct q. Qed.

Lemma follows_step ev s : follows s → follows (step ev s).
Proof.
  intros Hf q c o src Hq Hst Hsrc.
  destruct (step_settled_back ev s q c o src Hq Hst Hsrc) as [Hq'|Hs].
  - eapply step_settled, Hf; eauto.
  - by apply step_settled.
Qed.

Lemma follows_run evs s : follows s → follows (run evs s).
Proof.
  revert s. induction evs as [|ev evs IH]; intros s H; [done|].
  simpl. by apply IH, follows_step.
Qed.

(** *** A batch of calls for one key *)

(** The operation promise [p] of [key] is outstanding: its [finally]
    promise [f] is pending, with its callback still to run, and is the
    cache entry of [key]. *)
Definition in_flight (s : state) (key : string) (p f n : nat) : Prop :=
  heap s !! p = Some (mkCell (KOp n) Pending) ∧
  heap s !! f = Some (mkCell (KFinally p key false) Pending) ∧
  activeRequests s !! key = Some f.

Lemma invocations_of_snoc key key' id s :
  length (filter (λ x : string * nat, x.1 = key) (invoked s ++ [(key', id)]))
  = if decide (key' = key) then S (invocations_of key s)
    else invocations_of key s.
Proof.
  unfold invocations_of. rewrite filter_app, length_app.
  rewrite filter_singleton by exact []. simpl.
  case_decide; simpl; lia.
Qed.

Lemma pending_not_settled s p o : pending s p → settled s p o → False.
Proof. unfold pending, settled. congruence. Qed.

Lemma in_flight_step ev s key p f n :
  registered s → in_flight s key p f n → pending (step ev s) p →
  in_flight (step ev s) key p f n ∧
  invocations_of key (step ev s) = invocations_of key s.
Proof.
  intros Hreg (Hp & Hf & Hk) Hpend.
  destruct ev as [key' fn|m o|q|i|t]; simpl in *; try done.
  - unfold executeRequest.
    destruct (decide (key' = key)) as [->|Hne].
    + rewrite Hk. simpl. split; [|done].
      split_and!; simpl; by try apply lookup_app_l_Some.
    + destruct (activeRequests s !! key') as [f'|] eqn:Hk'; simpl.
      { split; [|done]. split_and!; simpl; by try apply lookup_app_l_Some. }
      destruct (fn_throws fn) as [e|]; simpl.
      * split.
        -- split_and!; simpl; by try apply lookup_app_l_Some.
        -- unfold invocations_of at 1. simpl.
           rewrite invocations_of_snoc. by case_decide.
      * split.
        -- split_and!; simpl.
           ++ by do 3 apply lookup_app_l_Some.
           ++ by do 3 apply lookup_app_l_Some.
           ++ by rewrite lookup_insert_ne.
        -- unfold invocations_of at 1. simpl.
           rewrite invocations_of_snoc. by case_decide.
  - split; [|done]. unfold in_flight, pending in *. simpl in *.
    rewrite !list_lookup_fmap, Hp, Hf in *. simpl in *.
    unfold settle_cell in *. simpl in *.
    case_decide; simpl in *; [by simplify_eq|done].
  - unfold microtask in *.
    destruct (heap s !! q) as [[k st]|] eqn:Hq; [|done].
    destruct k as [m|src key' [|]|src|], st as [|o']; try done.
    1-3: destruct (source_outcome s src) as [o|] eqn:Hs; simpl; [|done].
    all: split; [|done].
    all: assert (q ≠ p) by (intros ->; congruence).
    all: assert (q ≠ f) as Hqf;
      [ intros ->; rewrite Hf in Hq; simplify_eq;
        unfold source_outcome in Hs; by rewrite Hp in Hs |].
    all: unfold in_flight; simpl; rewrite !list_lookup_insert_ne by done.
    all: split_and!; try done.
    rewrite lookup_delete_ne; [done|]. intros ->.
    pose proof (Hreg _ _ _ _ Hq). congruence.
Qed.

Lemma step_pending_back ev s p c :
  heap s !! p = Some c → pending (step ev s) p → pending s p.
Proof.
  intros Hp Hpend. unfold pending. rewrite Hp. simpl.
  destruct (cstate c) as [|o] eqn:Hc; [done|]. exfalso.
  eapply (pending_not_settled _ _ o Hpend), step_settled.
  unfold settled. by rewrite Hp, <- Hc.
Qed.

Lemma run_pending_back evs s p c :
  heap s !! p = Some c → pending (run evs s) p → pending s p.
Proof.
  revert s c. induction evs as [|ev evs IH]; intros s c Hp H; [done|].
  simpl in H. destruct (step_cell ev s p c Hp) as (c' & Hp' & _).
  eapply step_pending_back; [done|]. by eapply IH.
Qed.

Lemma in_flight_run evs s key p f n :
  registered s → in_flight s key p f n → pending (run evs s) p →
  in_flight (run evs s) key p f n ∧
  invocations_of key (run evs s) = invocations_of key s.
Proof.
  revert s. induction evs as [|ev evs IH]; intros s Hreg Hin Hpend; [done|].
  simpl in *.
  assert (pending (step ev s) p) as Hpend'.
  { destruct Hin as (Hp & _).
    destruct (step_cell ev s p _ Hp) as (c' & Hp' & _).
    by eapply run_pending_back. }
  destruct (in_flight_step ev s key p f n Hreg Hin Hpend') as [Hin' Hinv].
  destruct (IH _ (registered_step ev s Hreg) Hin' Hpend) as [? ?].
  split; [done|congruence].
Qed.

Lemma source_of_kind s q k :
  kind_of s q = Some k → source_of s q = source k.
Proof.
  unfold kind_of, source_of. destruct (heap s !! q); simpl; congruence.
Qed.

Lemma run_app evs1 evs2 s : run (evs1 ++ evs2) s = run evs2 (run evs1 s).
Proof. apply foldl_app. Qed.

(** The first call of a batch: nothing is cached for [key], so [requestFn]
    is invoked, and its promise becomes the operation in flight. *)
Lemma executeRequest_first key fn s :
  activeRequests s !! key = None → fn_throws fn = None →
  let p := length (heap s) in
  (executeRequest key fn s).1 = p + 2 ∧
  in_flight (executeRequest key fn s).2 key p (p + 1) (length (invoked s)) ∧
  kind_of (executeRequest key fn s).2 (p + 2) = Some (KAsync (p + 1)) ∧
  invocations_of key (executeRequest key fn s).2 = S (invocations_of key s).
Proof.
  intros Hk Hfn p. unfold executeRequest, kind_of, in_flight.
  rewrite Hk, Hfn. simpl. rewrite <- !app_assoc. simpl.
  rewrite !length_app. simpl. fold p.
  assert (∀ i x, [mkCell (KOp (length (invoked s))) Pending;
            mkCell (KFinally p key false) Pending;
            mkCell (KAsync (p + 1)) Pending] !! i = Some x →
          (heap s ++ [mkCell (KOp (length (invoked s))) Pending;
            mkCell (KFinally p key false) Pending;
            mkCell (KAsync (p + 1)) (@Pending V E)]) !! (p + i) = Some x)
    as Hnew.
  { intros i x Hi. rewrite lookup_app_r by (unfold p; lia).
    by replace (p + i - length (heap s)) with i by (unfold p; lia). }
  pose proof (Hnew 0 _ eq_refl) as H0.
  pose proof (Hnew 1 _ eq_refl) as H1.
  pose proof (Hnew 2 _ eq_refl) as H2.
  replace (p + 0) with p in H0 by lia.
  replace (p + 1 + 1) with (p + 2) by lia.
  split_and!; try done.
  - by rewrite lookup_insert_eq.
  - by rewrite H2.
  - unfold invocations_of at 1. simpl. rewrite invocations_of_snoc.
    by case_decide.
Qed.

(** A later call of the batch finds the entry: [requestFn] is not invoked,
    and the promise returned follows the cached one. *)
Lemma executeRequest_cached key fn s f :
  activeRequests s !! key = Some f →
  (executeRequest key fn s).1 = length (heap s) ∧
  invoked (executeRequest key fn s).2 = invoked s ∧
  kind_of (executeRequest key fn s).2 (length (heap s)) = Some (KAsync f).
Proof.
  intros Hk. unfold executeRequest, kind_of. rewrite Hk. simpl.
  split_and!; try done.
  rewrite lookup_app_r by lia. by rewrite Nat.sub_diag.
Qed.

Lemma follows_source s q src o :
  follows s → source_of s q = Some src → settled s q o → settled s src o.
Proof.
  unfold source_of, settled at 1. intros Hf Hsrc Hq.
  destruct (heap s !! q) as [c|] eqn:Hc; [|done]. simpl in *.
  eapply Hf; eauto. congruence.
Qed.

(** *** Settlement reaches the callers *)

Lemma kind_evolves_trans k1 k2 k3 :
  kind_evolves k1 k2 → kind_evolves k2 k3 → kind_evolves k1 k3.
Proof.
  intros [->|(src & key & -> & ->)] [->|(src' & key' & ? & ->)];
    try (by left); try (right; by eauto).
Qed.

Lemma run_kind evs s q k :
  kind_of s q = Some k →
  ∃ k', kind_of (run evs s) q = Some k' ∧ kind_evolves k k'.
Proof.
  revert s k. induction evs as [|ev evs IH]; intros s k Hk.
  { exists k. split; [done|by left]. }
  unfold kind_of in Hk.
  destruct (heap s !! q) as [c|] eqn:Hq; [|done]. simpl in Hk.
  destruct (step_cell ev s q c Hq) as (c' & Hq' & Hev & _).
  destruct (IH (step ev s) (ckind c')) as (k' & Hk' & Hev').
  { unfold kind_of. by rewrite Hq'. }
  exists k'. split; [done|]. simplify_eq. by eapply kind_evolves_trans.
Qed.

Lemma run_kind_async evs s q f :
  kind_of s q = Some (KAsync f) → kind_of (run evs s) q = Some (KAsync f).
Proof.
  intros Hk. destruct (run_kind evs s q _ Hk) as (k' & Hk' & Hev).
  by destruct Hev as [->|(? & ? & ? & _)].
Qed.

Lemma run_kind_finally evs s q p key ran :
  kind_of s q = Some (KFinally p key ran) →
  ∃ ran', kind_of (run evs s) q = Some (KFinally p key ran').
Proof.
  intros Hk. destruct (run_kind evs s q _ Hk) as (k' & Hk' & Hev).
  destruct Hev as [->|(? & ? & ? & ->)]; simplify_eq; eauto.
Qed.

Lemma settled_source_outcome s p o :
  settled s p o → source_outcome s p = Some o.
Proof.
  unfold settled, source_outcome. intros H.
  destruct (heap s !! p) as [[k st]|]; simplify_eq; simpl in *.
  by simplify_eq.
Qed.

(** The promise of the async function settles in one reaction job. *)
Lemma microtask_async s q f o :
  follows s → kind_of s q = Some (KAsync f) → settled s f o →
  settled (microtask q s) q o.
Proof.
  intros Hfol Hk Hf. unfold kind_of in Hk. unfold microtask.
  destruct (heap s !! q) as [[k st]|] eqn:Hq; simplify_eq; simpl in *.
  simplify_eq. destruct st as [|o'].
  - rewrite (settled_source_outcome _ _ _ Hf). unfold settled. simpl.
    by rewrite list_lookup_insert_eq by (by eapply lookup_lt_Some).
  - pose proof (Hfol _ _ _ _ Hq eq_refl eq_refl) as Hf'.
    unfold settled in *. rewrite Hq. simpl. congruence.
Qed.

(** The [finally] promise settles in two: the callback, then the
    settlement. *)
Lemma microtask_finally s q p key ran o :
  follows s → kind_of s q = Some (KFinally p key ran) → settled s p o →
  settled (microtask q (microtask q s)) q o.
Proof.
  intros Hfol Hk Hp. unfold kind_of in Hk.
  destruct (heap s !! q) as [[k st]|] eqn:Hq; simplify_eq; simpl in *.
  simplify_eq. destruct st as [|o'].
  - assert (q ≠ p) as Hne.
    { intros ->. unfold settled in Hp. rewrite Hq in Hp. by simplify_eq. }
    assert (q < length (heap s)) by (by eapply lookup_lt_Some).
    pose proof (settled_source_outcome _ _ _ Hp) as Hso.
    destruct ran.
    + assert (microtask q s =
        set_cell q (mkCell (KFinally p key true) (Settled o)) s) as ->.
      { unfold microtask. by rewrite Hq, Hso. }
      apply (step_settled _ (Microtask q)). unfold settled. simpl.
      by rewrite list_lookup_insert_eq.
    + assert (microtask q s =
        mkState (delete key (activeRequests s))
          (<[q := mkCell (KFinally p key true) Pending]> (heap s))
          (invoked s)) as ->.
      { unfold microtask. by rewrite Hq, Hso. }
      unfold microtask, source_outcome. simpl.
      rewrite list_lookup_insert_eq by done.
      rewrite list_lookup_insert_ne by done.
      unfold source_outcome in Hso. rewrite Hso.
      unfold settled, set_cell. simpl.
      rewrite list_lookup_insert_eq; [done|]. by rewrite length_insert.
  - pose proof (Hfol _ _ _ _ Hq eq_refl eq_refl) as Hp'.
    assert (o' = o) as -> by (unfold settled in *; congruence).
    apply (step_settled _ (Microtask q)), (step_settled _ (Microtask q)).
    unfold settled. by rewrite Hq.
Qed.

(** C1. Promise-sharing cache.  The first call for [key] finds no entry and
    starts the operation.  A call for [key] made while that operation is
    outstanding, after any tasks [evs] in between, does not invoke its
    [requestFn]: the operation was invoked exactly once for the batch.
    Whatever happens afterwards, a caller's promise that has settled has
    the outcome of the operation, so the two callers get the same value or
    the same rejection; and once the operation has settled, the reaction
    jobs of the [finally] promise and of the two callers settle both
    callers with its outcome. *)
Theorem executeRequest_shares_in_flight
    (evs0 evs : list (event V E)) (key : string) (fn1 fn2 : requestFn E) :
  let s0 := run evs0 init in
  let p := length (heap s0) in
  let q1 := (executeRequest key fn1 s0).1 in
  let s1 := (executeRequest key fn1 s0).2 in
  let s2 := run evs s1 in
  let q2 := (executeRequest key fn2 s2).1 in
  let s3 := (executeRequest key fn2 s2).2 in
  activeRequests s0 !! key = None →
  fn_throws fn1 = None →
  pending s2 p →
  invoked s3 = invoked s2 ∧
  invocations_of key s3 = S (invocations_of key s0) ∧
  (∀ evs' o1 o2,
      settled (run evs' s3) q1 o1 → settled (run evs' s3) q2 o2 →
      o1 = o2 ∧ settled (run evs' s3) p o1) ∧
  (∀ evs' o,
      settled (run evs' s3) p o →
      let jobs := [Microtask (p + 1); Microtask (p + 1);
                   Microtask q1; Microtask q2] in
      settled (run jobs (run evs' s3)) q1 o ∧
      settled (run jobs (run evs' s3)) q2 o).
Proof.
  intros s0 p q1 s1 s2 q2 s3 Hk Hfn Hpend.
  assert (registered s0) as Hreg0 by apply registered_run, registered_init.
  assert (follows s0) as Hfol0 by apply follows_run, follows_init.
  destruct (executeRequest_first key fn1 s0 Hk Hfn)
    as (Hq1 & Hin1 & Hkq1 & Hinv1).
  fold p q1 s1 in Hq1, Hin1, Hkq1, Hinv1. rewrite <- Hq1 in Hkq1.
  assert (registered s1) as Hreg1
    by apply (registered_step (Call key fn1)), Hreg0.
  destruct (in_flight_run evs s1 key p (p + 1) _ Hreg1 Hin1 Hpend)
    as [(Hp2 & Hf2 & Hk2) Hinv2].
  fold s2 in Hp2, Hf2, Hk2, Hinv2.
  destruct (executeRequest_cached key fn2 s2 _ Hk2) as (Hq2 & Hinv3 & Hkq2).
  fold q2 s3 in Hq2, Hinv3, Hkq2. rewrite <- Hq2 in Hkq2.
  assert (∀ evs', run evs' s3 = run (evs ++ Call key fn2 :: evs') s1) as Hrun.
  { intros evs'. by rewrite run_app. }
  assert (∀ evs', follows (run evs' s3)) as Hfol4.
  { intros evs'. rewrite Hrun.
    by apply follows_run, (follows_step (Call key fn1)). }
  assert (∀ evs', ∃ ran,
            kind_of (run evs' s3) (p + 1) = Some (KFinally p key ran)) as Hkf4.
  { intros evs'. rewrite Hrun. eapply run_kind_finally.
    destruct Hin1 as (_ & Hf1 & _). unfold kind_of. by rewrite Hf1. }
  assert (∀ evs', kind_of (run evs' s3) q1 = Some (KAsync (p + 1))) as Hk14.
  { intros evs'. rewrite Hrun. by apply run_kind_async. }
  assert (∀ evs', kind_of (run evs' s3) q2 = Some (KAsync (p + 1))) as Hk24.
  { intros evs'. by apply run_kind_async. }
  split_and!.
  - done.
  - unfold invocations_of at 1. rewrite Hinv3. fold (invocations_of key s2).
    congruence.
  - intros evs' o1 o2 H1 H2. destruct (Hkf4 evs') as [ran Hkf].
    pose proof (follows_source _ _ _ _ (Hfol4 evs')
                  (source_of_kind _ _ _ (Hk14 evs')) H1) as Hf1.
    pose proof (follows_source _ _ _ _ (Hfol4 evs')
                  (source_of_kind _ _ _ (Hk24 evs')) H2) as Hf2'.
    simpl in Hf1, Hf2'.
    split; [unfold settled in *; congruence|].
    eapply follows_source; [apply Hfol4| |exact Hf1].
    by rewrite (source_of_kind _ _ _ Hkf).
  - intros evs' o Hp4 jobs. destruct (Hkf4 evs') as [ran Hkf].
    specialize (Hfol4 evs'). specialize (Hk14 evs'). specialize (Hk24 evs').
    set (s4 := run evs' s3) in *.
    set (sa := microtask (p + 1) (microtask (p + 1) s4)).
    assert (sa = run [Microtask (p + 1); Microtask (p + 1)] s4) as Hsa by done.
    assert (settled sa (p + 1) o) as Hfa
      by (eapply microtask_finally; eauto).
    assert (follows sa) as Hfola by (rewrite Hsa; by apply follows_run).
    assert (kind_of sa q1 = Some (KAsync (p + 1))) as Hka1
      by (rewrite Hsa; by apply run_kind_async).
    assert (kind_of sa q2 = Some (KAsync (p + 1))) as Hka2
      by (rewrite Hsa; by apply run_kind_async).
    set (sb := microtask q1 sa).
    assert (settled sb q1 o) as H1b by (by eapply microtask_async).
    assert (follows sb) as Hfolb
      by apply (follows_step (Microtask q1)), Hfola.
    assert (kind_of sb q2 = Some (KAsync (p + 1))) as Hkb2
      by apply (run_kind_async [Microtask q1]), Hka2.
    assert (settled sb (p + 1) o) as Hfb
      by apply (step_settled _ (Microtask q1)), Hfa.
    change (run jobs s4) with (microtask q2 sb).
    split.
    + by apply (step_settled _ (Microtask q2)).
    + by eapply microtask_async.
Qed.

End Sharing.

(** The batch theorem at a concrete schedule: a tenant lookup is started, a
    call for another key and a reaction job intervene, and a second tenant
    lookup arrives while the first is outstanding. *)
Lemma executeRequest_shares_in_flight_witness :
  activeRequests (run [] (@init nat string)) !! "tenant-lookup-7" = None ∧
  pending
    (run [Call "menu" (mkFn 5 None); Microtask 1]
       (executeRequest "tenant-lookup-7" (mkFn 0 None) (@init nat string)).2)
    0 ∧
  invocations_of "tenant-lookup-7"
    (executeRequest "tenant-lookup-7" (mkFn 1 None)
       (run [Call "menu" (mkFn 5 None); Microtask 1]
          (executeRequest "tenant-lookup-7" (mkFn 0 None)
             (@init nat string)).2)).2
  = 1.
Proof.
  assert (activeRequests (run [] (@init nat string)) !! "tenant-lookup-7"
          = None) as H1 by (vm_compute; reflexivity).
  assert (pending
    (run [Call "menu" (mkFn 5 None); Microtask 1]
       (executeRequest "tenant-lookup-7" (mkFn 0 None) (@init nat string)).2)
    0) as H2 by (vm_compute; reflexivity).
  split; [exact H1|]. split; [exact H2|].
  exact (proj1 (proj2
    (executeRequest_shares_in_flight
       [] [Call "menu" (mkFn 5 None); Microtask 1]
       "tenant-lookup-7" (mkFn 0 None) (mkFn 1 None) H1 eq_refl H2))).
Defined.

End Sharing.


(** *** The polling form *)

Module Polling.
Section Polling.
Context {V E : Type}.

(** [new Error('Request timeout')]. *)
Variable requestTimeout : E.

Inductive kind : Type :=
| KOp (n : nat)
    (* returned by the n-th invocation of a requestFn *)
| KBody (src : nat) (key : string)
    (* the promise of the async function that awaits src; its finally
       block deletes key *)
| KDeferred (follows : option nat)
    (* new Promise((resolve, reject) => ...), and the promise whose
       then(resolve).catch(reject) settles it, once the request is
       re-executed *)
| KAsync (src : nat)
    (* the promise of the async function, resolved with promise src *)
| KThrown.
    (* the promise of the async function, when requestFn() threw *)

Record cell : Type := mkCell {
  ckind : kind;
  cstate : pstate V E;
}.

(** [setInterval(..., 100)] and [setTimeout(..., 30000)] of a waiting
    caller. *)
Record interval : Type := mkInterval {
  ikey : string;
  ifn : requestFn E;
  itarget : nat;
  iactive : bool;
}.

Record timeout : Type := mkTimeout {
  ttarget : nat;
  tinterval : nat;
  tarmed : bool;
}.

Record state : Type := mkState {
  activeRequests : gset string;
  heap : list cell;
  intervals : list interval;
  timeouts : list timeout;
  invoked : list (string * nat);
}.

Definition init : state := mkState ∅ [] [] [] [].

Definition alloc (c : cell) (s : state) : nat * state :=
  (length (heap s),
   mkState (activeRequests s) (heap s ++ [c]) (intervals s) (timeouts s)
           (invoked s)).

Definition executeRequest (key : string) (fn : requestFn E) (s : state)
  : nat * state :=
  if decide (key ∈ activeRequests s) then
    let '(deferred, s) := alloc (mkCell (KDeferred None) Pending) s in
    let checkInterval := length (intervals s) in
    let s := mkState (activeRequests s) (heap s)
               (intervals s ++ [mkInterval key fn deferred true])
               (timeouts s ++ [mkTimeout deferred checkInterval true])
               (invoked s) in
    alloc (mkCell (KAsync deferred) Pending) s
  else
    let n := length (invoked s) in
    let s := mkState ({[key]} ∪ activeRequests s) (heap s) (intervals s)
               (timeouts s) (invoked s ++ [(key, fn_id fn)]) in
    match fn_throws fn with
    | Some e =>
        let s := mkState (activeRequests s ∖ {[key]}) (heap s) (intervals s)
                   (timeouts s) (invoked s) in
        alloc (mkCell KThrown (Settled (Rejected e))) s
    | None =>
        let '(p, s) := alloc (mkCell (KOp n) Pending) s in
        alloc (mkCell (KBody p key) Pending) s
    end.

Definition clearInterval (i : nat) (s : state) : state :=
  match intervals s !! i with
  | Some iv =>
      mkState (activeRequests s) (heap s)
        (<[i := mkInterval (ikey iv) (ifn iv) (itarget iv) false]> (intervals s))
        (timeouts s) (invoked s)
  | None => s
  end.

Definition update_cell (p : nat) (f : cell → cell) (s : state) : state :=
  match heap s !! p with
  | Some c =>
      mkState (activeRequests s) (<[p := f c]> (heap s)) (intervals s)
              (timeouts s) (invoked s)
  | None => s
  end.

(** The interval callback: once the key is no longer active, the request
    is executed again, and its result is passed on to the waiting caller. *)
Definition interval_tick (i : nat) (s : state) : state :=
  match intervals s !! i with
  | Some iv =>
      if iactive iv then
        if decide (ikey iv ∉ activeRequests s) then
          let s := clearInterval i s in
          let '(q, s) := executeRequest (ikey iv) (ifn iv) s in
          update_cell (itarget iv)
            (λ c, mkCell (KDeferred (Some q)) (cstate c)) s
        else s
      else s
  | None => s
  end.

(** The 30 second timer of a waiting caller. *)
Definition timeout_fires (t : nat) (s : state) : state :=
  match timeouts s !! t with
  | Some tm =>
      if tarmed tm then
        let s := mkState (activeRequests s) (heap s) (intervals s)
                   (<[t := mkTimeout (ttarget tm) (tinterval tm) false]>
                      (timeouts s))
                   (invoked s) in
        let s := clearInterval (tinterval tm) s in
        update_cell (ttarget tm)
          (λ c, mkCell (ckind c) (settle (Rejected requestTimeout) (cstate c)))
          s
      else s
  | None => s
  end.

Definition settle_cell (n : nat) (o : outcome V E) (c : cell) : cell :=
  match ckind c with
  | KOp m => if decide (m = n) then mkCell (ckind c) (settle o (cstate c)) else c
  | _ => c
  end.

Definition settle_op (n : nat) (o : outcome V E) (s : state) : state :=
  mkState (activeRequests s) (settle_cell n o <$> heap s) (intervals s)
          (timeouts s) (invoked s).

Definition source_outcome (s : state) (src : nat) : option (outcome V E) :=
  match heap s !! src with
  | Some (mkCell _ (Settled o)) => Some o
  | _ => None
  end.

(** The continuation of promise [p], if what it waits for has settled.
    For the body of the async function: the [finally] block, then the
    result of the awaited promise. *)
Definition microtask (p : nat) (s : state) : state :=
  match heap s !! p with
  | Some (mkCell (KBody src key) Pending) =>
      match source_outcome s src with
      | Some o =>
          mkState (activeRequests s ∖ {[key]})
                  (<[p := mkCell (KBody src key) (Settled o)]> (heap s))
                  (intervals s) (timeouts s) (invoked s)
      | None => s
      end
  | Some (mkCell (KDeferred (Some src)) Pending) =>
      match source_outcome s src with
      | Some o =>
          update_cell p (λ c, mkCell (ckind c) (Settled o)) s
      | None => s
      end
  | Some (mkCell (KAsync src) Pending) =>
      match source_outcome s src with
      | Some o => update_cell p (λ c, mkCell (ckind c) (Settled o)) s
      | None => s
      end
  | _ => s
  end.

Definition step (ev : event V E) (s : state) : state :=
  match ev with
  | Call key fn => (executeRequest key fn s).2
  | OpSettles n o => settle_op n o s
  | Microtask p => microtask p s
  | IntervalTick i => interval_tick i s
  | TimeoutFires t => timeout_fires t s
  end.

Definition run (evs : list (event V E)) (s : state) : state :=
  foldl (λ s ev, step ev s) s evs.

Definition state_of (s : state) (p : nat) : option (pstate V E) :=
  cstate <$> heap s !! p.

Definition invocations_of (key : string) (s : state) : nat :=
  length (filter (λ x, x.1 = key) (invoked s)).

End Polling.
End Polling.

(** *** The two forms on one schedule *)

(** Two callers ask for the same tenant; the backend answers the first
    request; the reactions of the first request run; the second caller's
    interval fires; the backend fails the request that was issued again;
    the remaining reactions run. *)
Definition racing_schedule : list (event nat string) :=
  [ Call "tenant-lookup-7" (mkFn 0 None);
    Call "tenant-lookup-7" (mkFn 0 None);
    OpSettles 0 (Fulfilled 11);
    Microtask 1; Microtask 1; Microtask 2; Microtask 3;
    IntervalTick 0;
    OpSettles 1 (Rejected "row lock");
    Microtask 5; Microtask 2; Microtask 3 ].


(** The promises handed to the two callers of [racing_schedule]: 1 and 3 in
    the polling form, 2 and 3 in the promise-sharing form. *)
Example racing_callers_polling :
  (Polling.executeRequest "tenant-lookup-7" (mkFn 0 None)
     (@Polling.init nat string)).1 = 1 ∧
  (Polling.executeRequest "tenant-lookup-7" (mkFn 0 None)
     (Polling.run "Request timeout" (take 1 racing_schedule)
        Polling.init)).1 = 3.
Proof. split; vm_compute; reflexivity. Qed.

Example racing_callers_sharing :
  (Sharing.executeRequest "tenant-lookup-7" (mkFn 0 None)
     (@Sharing.init nat string)).1 = 2 ∧
  (Sharing.executeRequest "tenant-lookup-7" (mkFn 0 None)
     (Sharing.run (take 1 racing_schedule) Sharing.init)).1 = 3.
Proof. split; vm_compute; reflexivity. Qed.

(** C6. The two forms differ on [racing_schedule].  In both, the second
    call arrives while the operation of the first is in flight.  The
    polling form then invokes the operation a second time, when the
    interval finds the key released, and the second caller gets the outcome
    of that second invocation; the promise-sharing form invokes it once and
    gives both callers the outcome of that one invocation. *)
Theorem polling_reissues_operation :
  let key := "tenant-lookup-7" in
  let timeoutError := "Request timeout" in
  let polled := Polling.run timeoutError racing_schedule Polling.init in
  let shared := Sharing.run racing_schedule Sharing.init in
  (* the second call finds the first operation outstanding, in both forms *)
  key ∈ Polling.activeRequests
          (Polling.run timeoutError (take 1 racing_schedule) Polling.init) ∧
  Polling.state_of
    (Polling.run timeoutError (take 2 racing_schedule) Polling.init) 0
  = Some Pending ∧
  Sharing.pending (Sharing.run (take 2 racing_schedule) Sharing.init) 0 ∧
  (* the operation is invoked twice by the polling form, once by the other *)
  Polling.invocations_of key polled = 2 ∧
  Sharing.invocations_of key shared = 1 ∧
  (* what the first and the second caller receive *)
  Polling.state_of polled 1 = Some (Settled (Fulfilled 11)) ∧
  Polling.state_of polled 3 = Some (Settled (Rejected "row lock")) ∧
  Sharing.settled shared 2 (Fulfilled 11) ∧
  Sharing.settled shared 3 (Fulfilled 11).
Proof.
  cbv zeta. split_and!; vm_compute; reflexivity.
Qed.

End Dedup.

(** ** hooks/useAuth.tsx: the authentication context *)

Module Auth.

Definition Err : Type := string.

(** lib/constants.ts *)
Module USER_ROLES.
Definition SUPER_ADMIN : string := "super_admin".
Definition RESTAURANT_OWNER : string := "restaurant_owner".
End USER_ROLES.

Record User : Type := mkUser { user_id : string }.

Record Session : Type := mkSession { session_user : option User }.

(** A row of [profiles], with the columns the provider reads. *)
Record Profile : Type := mkProfile {
  id : string;
  role : string;
  tenant_id : option string;
}.

(** A row of [tenants] under [select("id")]. *)
Record Tenant : Type := mkTenant { tenant_row_id : string }.

(** What a query of the backend client resolves to: [{ data, error }]. *)
Record response (A : Type) : Type := mkResponse {
  data : option A;
  error : option Err;
}.
Arguments mkResponse {A} data error.
Arguments data {A} r.
Arguments error {A} r.

(** Truthiness of a [string | null]. *)
Definition truthy (v : option string) : bool :=
  match v with
  | Some s => negb (String.eqb s "")
  | None => false
  end.

(** [v || null]. *)
Definition or_null (v : option string) : option string :=
  if truthy v then v else None.

(** Requests sent to the backend, in the order they are sent. *)
Inductive request : Type :=
| ProfileByUser (uid : string)
| TenantByOwner (owner : string).

(** The state of the provider: the five [useState] cells, the [mounted]
    variable of the auth effect, the cache of [useRequestDeduplication],
    and the requests issued so far. *)
Record state : Type := mkState {
  user : option User;
  session : option Session;
  profile : option Profile;
  tenantId : option string;
  loading : bool;
  mounted : bool;
  cache : @Dedup.Sharing.state (option Tenant) Err;
  requests : list request;
}.

(** The state at the first render. *)
Definition initial : state :=
  mkState None None None None true true Dedup.Sharing.init [].

(** *** Statements *)

(** How a block of statements ends. *)
Inductive completion : Type :=
| Normal
| Return
| Throw (e : Err).

Definition stmt : Type := state → completion * state.

Definition skip : stmt := λ s, (Normal, s).
Definition ret : stmt := λ s, (Return, s).
Definition throw (e : Err) : stmt := λ s, (Throw e, s).

Definition seq (a b : stmt) : stmt :=
  λ s, match a s with
       | (Normal, s') => b s'
       | r => r
       end.

Definition ifS (c : state → bool) (a b : stmt) : stmt :=
  λ s, if c s then a s else b s.

Definition try_catch (body : stmt) (handler : Err → stmt) : stmt :=
  λ s, match body s with
       | (Throw e, s') => handler e s'
       | r => r
       end.

(** The [finally] block runs however the body ended, and the body's
    completion stands unless the block itself ends abruptly. *)
Definition try_finally (body fin : stmt) : stmt :=
  λ s, let '(c, s') := body s in
       let '(c', s'') := fin s' in
       (match c' with Normal => c | _ => c' end, s'').

(** [await]: the value of a fulfilled promise, or its rejection thrown. *)
Definition await {A} (r : outcome A Err) (k : A → stmt) : stmt :=
  match r with
  | Fulfilled a => k a
  | Rejected e => throw e
  end.

Declare Scope stmt_scope.
Delimit Scope stmt_scope with stmt.
Bind Scope stmt_scope with stmt.
Notation "a ;; b" := (seq a b) (at level 100, b at level 200, right associativity) : stmt_scope.
Open Scope stmt_scope.

Definition setSession (v : option Session) : stmt :=
  λ s, (Normal, mkState (user s) v (profile s) (tenantId s) (loading s)
                        (mounted s) (cache s) (requests s)).
Definition setUser (v : option User) : stmt :=
  λ s, (Normal, mkState v (session s) (profile s) (tenantId s) (loading s)
                        (mounted s) (cache s) (requests s)).
Definition setProfile (v : option Profile) : stmt :=
  λ s, (Normal, mkState (user s) (session s) v (tenantId s) (loading s)
                        (mounted s) (cache s) (requests s)).
Definition setTenantId (v : option string) : stmt :=
  λ s, (Normal, mkState (user s) (session s) (profile s) v (loading s)
                        (mounted s) (cache s) (requests s)).
Definition setLoading (v : bool) : stmt :=
  λ s, (Normal, mkState (user s) (session s) (profile s) (tenantId s) v
                        (mounted s) (cache s) (requests s)).
Definition send (r : request) : stmt :=
  λ s, (Normal, mkState (user s) (session s) (profile s) (tenantId s)
                        (loading s) (mounted s) (cache s) (requests s ++ [r])).

(** The cleanup of the auth effect. *)
Definition unmount (s : state) : state :=
  mkState (user s) (session s) (profile s) (tenantId s) (loading s) false
          (cache s) (requests s).

(** An async function, up to its first [await]: finished, or suspended on
    what it awaits. *)
Inductive progress (R : Type) : Type :=
| Done (c : completion)
| Awaiting (r : R).
Arguments Done {R} c.
Arguments Awaiting {R} r.

(** The safety-net timer.  Its callback reads [mounted], and the [loading]
    of the render that created the effect, which is the first. *)
Definition globalTimeout (s : state) : state :=
  if mounted s && loading initial then (setLoading false s).2 else s.

(** *** First form: the tenant is looked up inline *)

Module Inline.

(** [setTimeout(..., 8000)]. *)
Definition globalTimeout_ms : Z := 8000.

(** The auth-change handler up to its [await] of the profile row. *)
Definition onAuthStateChange_begin (sess : option Session) (s : state)
  : progress string * state :=
  if negb (mounted s) then (Done Return, s)
  else
    let s := ((setSession sess ;; setUser (sess ≫= session_user)) s).2 in
    match sess ≫= session_user with
    | None =>
        (Done Return,
         (ifS mounted
            (setProfile None ;; setTenantId None ;; setLoading false)
            skip s).2)
    | Some u =>
        (Awaiting (user_id u), (send (ProfileByUser (user_id u)) s).2)
    end.

(** The tenant lookup started for a restaurant owner, which the handler
    does not wait for: up to its [await], and after it. *)
Definition tenantLookup_begin (profileData : Profile) : stmt :=
  send (TenantByOwner (id profileData)).

Definition tenantLookup_resume (r : outcome (response Tenant) Err) : stmt :=
  try_catch
    (await r (λ resp,
       match data resp with
       | Some row => ifS mounted (setTenantId (Some (tenant_row_id row))) skip
       | None => skip
       end))
    (λ err, skip).

(** The handler from the settlement of the profile query on: the rest of
    its [try] block, and its [catch] block. *)
Definition onAuthStateChange_resume (r : outcome (response Profile) Err)
  : stmt :=
  try_catch
    (await r (λ resp,
       ifS (λ s, negb (mounted s)) ret
         match error resp with
         | Some _ => setProfile None ;; setLoading false ;; ret
         | None =>
             setProfile (data resp) ;;
             match data resp with
             | None => throw "TypeError: profileData is null"
             | Some profileData =>
                 (if String.eqb (role profileData) USER_ROLES.RESTAURANT_OWNER
                  then tenantLookup_begin profileData
                  else skip) ;;
                 setLoading false
             end
         end))
    (λ err, ifS mounted (setProfile None ;; setLoading false) skip).

Definition isAdmin (s : state) : bool :=
  match profile s with
  | Some p => String.eqb (role p) USER_ROLES.SUPER_ADMIN
  | None => false
  end.

Definition isRestaurantOwner (s : state) : bool :=
  match profile s with
  | Some p => String.eqb (role p) USER_ROLES.RESTAURANT_OWNER
  | None => false
  end.

End Inline.

(** *** Second form: the [resolveTenant] effect *)

Module Effect.

(** [setTimeout(..., 10000)]. *)
Definition globalTimeout_ms : Z := 10000.

Definition profileTimeout_ms : Z := 3000.
Definition profileTimeoutError : Err := "Profile fetch timed out".
Definition tenantTimeout_ms : Z := 3000.
Definition tenantTimeoutError : Err := "Tenant lookup timed out".

(** What the handler awaits: [withTimeout(profilePromise, 3000, ...)]. *)
Record profile_wait : Type := mkProfileWait {
  profile_of : string;
  profile_deadline : @WithTimeout.state (response Profile) Err;
}.

Definition onAuthStateChange_begin (sess : option Session) (s : state)
  : progress profile_wait * state :=
  if negb (mounted s) then (Done Return, s)
  else
    let s := ((setSession sess ;; setUser (sess ≫= session_user)) s).2 in
    match sess ≫= session_user with
    | None =>
        (Done Return,
         (ifS mounted (setProfile None ;; setLoading false) skip s).2)
    | Some u =>
        (Awaiting (mkProfileWait (user_id u)
                     (WithTimeout.withTimeout profileTimeout_ms)),
         (send (ProfileByUser (user_id u)) s).2)
    end.

(** The handler from the settlement of the wrapped profile query on: the
    rest of its [try] block, its [catch] and its [finally] block. *)
Definition onAuthStateChange_resume (r : outcome (response Profile) Err)
  : stmt :=
  try_finally
    (try_catch
       (await r (λ resp,
          ifS (λ s, negb (mounted s)) ret
            match error resp with
            | Some _ => setProfile None
            | None => setProfile (data resp)
            end))
       (λ err, ifS mounted (setProfile None) skip))
    (ifS mounted (setLoading false) skip).

(** The key under which the ownership lookup is deduplicated. *)
Definition lookup_key (p : Profile) : string :=
  String.append "tenant-lookup-" (id p).

(** The function handed to [executeRequest]: an async arrow function over
    the profile, which returns a promise and never throws on the way.  It
    is told apart by the profile id it asks for. *)
Definition lookup_fn (p : Profile) : Dedup.requestFn Err :=
  Dedup.mkFn (encode_nat (id p)) None.

(** What that function sends when it is invoked: the query of [tenants]
    by [owner_id]. *)
Definition lookup_request (p : Profile) : request := TenantByOwner (id p).

(** Whether a call of the cache invoked the function it was given: the
    log of invocations has grown. *)
Definition invoked_by
    (before after : @Dedup.Sharing.state (option Tenant) Err) : bool :=
  Nat.ltb (length (Dedup.Sharing.invoked before))
          (length (Dedup.Sharing.invoked after)).

(** The promise of that function, from the answer of the backend. *)
Definition lookup_result (r : outcome (response Tenant) Err)
  : outcome (option Tenant) Err :=
  match r with
  | Fulfilled resp =>
      match error resp with
      | Some e => Rejected e
      | None => Fulfilled (data resp)
      end
  | Rejected e => Rejected e
  end.

(** What [resolveTenant] awaits:
    [withTimeout(tenantLookupPromise, 3000, ...)]. *)
Record tenant_wait : Type := mkTenantWait {
  tenantLookupPromise : nat;
  tenant_deadline : @WithTimeout.state (option Tenant) Err;
}.

(** [resolveTenant] up to its [await]; the [mounted] of its effect was
    just set to [true].  The ownership query is sent when [executeRequest]
    invokes the lookup function, and not when it finds the key cached. *)
Definition resolveTenant_begin (s : state) : progress tenant_wait * state :=
  match profile s with
  | None => (Done Return, (setTenantId None s).2)
  | Some p =>
      if truthy (tenant_id p) then
        (Done Return, (setTenantId (tenant_id p) s).2)
      else if String.eqb (role p) "restaurant_owner" then
        let '(q, c) :=
          Dedup.Sharing.executeRequest (lookup_key p) (lookup_fn p)
            (cache s) in
        (Awaiting (mkTenantWait q (WithTimeout.withTimeout tenantTimeout_ms)),
         mkState (user s) (session s) (profile s) (tenantId s) (loading s)
                 (mounted s) c
                 (requests s ++
                  if invoked_by (cache s) c then [lookup_request p] else []))
      else
        (Done Normal, (setTenantId None s).2)
  end.

(** [resolveTenant] from the settlement of the wrapped lookup on;
    [mounted_now] is the [mounted] of its effect at that time. *)
Definition resolveTenant_resume (mounted_now : bool)
    (r : outcome (option Tenant) Err) : stmt :=
  try_catch
    (await r (λ tenant,
       (if mounted_now
        then setTenantId (or_null (tenant_row_id <$> tenant))
        else skip) ;;
       ret))
    (λ err, if mounted_now then setTenantId None else skip).

Definition isAdmin (s : state) : bool :=
  match profile s with
  | Some p => String.eqb (role p) "super_admin"
  | None => false
  end.

Definition isRestaurantOwner (s : state) : bool :=
  match profile s with
  | Some p => String.eqb (role p) "restaurant_owner"
  | None => false
  end.

End Effect.

(** *** Properties of the provider *)

Ltac unfold_stmt :=
  unfold try_finally, try_catch, await, ifS, seq, ret, skip, throw,
    setSession, setUser, setProfile, setTenantId, setLoading, send in *;
  simpl in *.

(** A query has failed: an error payload, or a rejection (an exception of
    the client, or the timeout of the wrapper). *)
Definition failed {A} (r : outcome (response A) Err) : Prop :=
  match r with
  | Fulfilled resp => error resp ≠ None
  | Rejected _ => True
  end.



(** While the provider is mounted, the handler leaves [loading] false
    however the profile query ended. *)
Lemma inline_resume_loading r s :
  mounted s = true → loading (Inline.onAuthStateChange_resume r s).2 = false.
Proof.
  intros Hm.
  unfold Inline.onAuthStateChange_resume, Inline.tenantLookup_begin.
  destruct r as [[[p|] [err|]]|err]; unfold_stmt; rewrite ?Hm; simpl;
    try done.
  by destruct (String.eqb (role p) USER_ROLES.RESTAURANT_OWNER).
Qed.

Lemma effect_resume_loading r s :
  mounted s = true → loading (Effect.onAuthStateChange_resume r s).2 = false.
Proof.
  intros Hm. unfold Effect.onAuthStateChange_resume.
  destruct r as [[d [err|]]|err]; unfold_stmt; rewrite ?Hm; simpl;
    rewrite ?Hm; done.
Qed.



Lemma globalTimeout_loading s :
  mounted s = true → loading (globalTimeout s) = false.
Proof. intros Hm. unfold globalTimeout. by rewrite Hm. Qed.

Lemma inline_begin_no_session sess s :
  mounted s = true → sess ≫= session_user = None →
  (Inline.onAuthStateChange_begin sess s).1 = Done Return ∧
  loading (Inline.onAuthStateChange_begin sess s).2 = false.
Proof.
  intros Hm Hs. unfold Inline.onAuthStateChange_begin.
  rewrite Hm, Hs. unfold_stmt. by rewrite Hm.
Qed.

Lemma effect_begin_no_session sess s :
  mounted s = true → sess ≫= session_user = None →
  (Effect.onAuthStateChange_begin sess s).1 = Done Return ∧
  loading (Effect.onAuthStateChange_begin sess s).2 = false.
Proof.
  intros Hm Hs. unfold Effect.onAuthStateChange_begin.
  rewrite Hm, Hs. unfold_stmt. by rewrite Hm.
Qed.


Lemma effect_begin_session sess u s :
  mounted s = true → sess ≫= session_user = Some u →
  (Effect.onAuthStateChange_begin sess s).1
  = Awaiting (Effect.mkProfileWait (user_id u)
                (WithTimeout.withTimeout Effect.profileTimeout_ms)) ∧
  mounted (Effect.onAuthStateChange_begin sess s).2 = true.
Proof.
  intros Hm Hs. unfold Effect.onAuthStateChange_begin.
  rewrite Hm, Hs. by unfold_stmt.
Qed.

Lemma inline_begin_mounted sess s :
  mounted (Inline.onAuthStateChange_begin sess s).2 = mounted s.
Proof.
  unfold Inline.onAuthStateChange_begin.
  destruct (mounted s) eqn:Hm; simpl; [|done].
  destruct (sess ≫= session_user); unfold_stmt; by rewrite ?Hm.
Qed.

Lemma effect_begin_mounted sess s :
  mounted (Effect.onAuthStateChange_begin sess s).2 = mounted s.
Proof.
  unfold Effect.onAuthStateChange_begin.
  destruct (mounted s) eqn:Hm; simpl; [|done].
  destruct (sess ≫= session_user); unfold_stmt; by rewrite ?Hm.
Qed.

(** Nothing sets [loading] back to [true]: once false it stays false. *)
Lemma loading_stays_false s :
  loading s = false →
  (∀ sess, loading (Inline.onAuthStateChange_begin sess s).2 = false ∧
           loading (Effect.onAuthStateChange_begin sess s).2 = false) ∧
  (∀ r, loading (Inline.onAuthStateChange_resume r s).2 = false ∧
        loading (Effect.onAuthStateChange_resume r s).2 = false) ∧
  (∀ r, loading (Inline.tenantLookup_resume r s).2 = false) ∧
  (∀ m r, loading (Effect.resolveTenant_resume m r s).2 = false) ∧
  loading (Effect.resolveTenant_begin s).2 = false ∧
  loading (globalTimeout s) = false.
Proof.
  intros Hl. split_and!.
  - intros sess.
    unfold Inline.onAuthStateChange_begin, Effect.onAuthStateChange_begin.
    destruct (mounted s) eqn:Hm; simpl; [|done].
    destruct (sess ≫= session_user); unfold_stmt; by rewrite ?Hm.
  - intros r.
    unfold Inline.onAuthStateChange_resume, Effect.onAuthStateChange_resume,
      Inline.tenantLookup_begin.
    destruct r as [[[p|] [err|]]|err]; unfold_stmt;
      destruct (mounted s) eqn:Hm; simpl; rewrite ?Hm; try done.
    by destruct (String.eqb (role p) USER_ROLES.RESTAURANT_OWNER).
  - intros r. unfold Inline.tenantLookup_resume.
    destruct r as [[[row|] err]|err]; unfold_stmt; try done.
    by destruct (mounted s).
  - intros m r. unfold Effect.resolveTenant_resume.
    destruct r, m; by unfold_stmt.
  - unfold Effect.resolveTenant_begin.
    destruct (profile s) as [p|]; [|done].
    destruct (truthy (tenant_id p)); [done|].
    destruct (String.eqb (role p) "restaurant_owner"); [|done].
    by destruct (Dedup.Sharing.executeRequest _ _ _).
  - unfold globalTimeout. by destruct (mounted s).
Qed.

(** C3. While the provider is mounted, every auth-change notification ends
    with [loading] false, in both forms of the provider: without a session
    the handler clears it at once; with a session it clears it when the
    profile query settles, whether with a row, with an error payload or
    with an exception, from whatever state the provider is in by then; in
    the second form the query is raced against a 3 second timer, so the
    handler is resumed even if the query hangs, then with the timeout
    error.  The safety-net timer clears [loading] whether or not a
    notification came, and whether or not its query ever settles. *)
Theorem loading_reaches_false (s : state) (sess : option Session) :
  mounted s = true →
  (sess ≫= session_user = None →
     loading (Inline.onAuthStateChange_begin sess s).2 = false ∧
     loading (Effect.onAuthStateChange_begin sess s).2 = false) ∧
  (∀ s' r, mounted s' = true →
     loading (Inline.onAuthStateChange_resume r s').2 = false ∧
     loading (Effect.onAuthStateChange_resume r s').2 = false) ∧
  (∀ s' ev rest, mounted s' = true →
     ∃ o, WithTimeout.wrapper
            (WithTimeout.run Effect.profileTimeoutError (ev :: rest)
               (WithTimeout.withTimeout Effect.profileTimeout_ms))
          = Settled o ∧
          (ev = WithTimeout.TimerFires →
           o = Rejected Effect.profileTimeoutError) ∧
          loading (Effect.onAuthStateChange_resume o s').2 = false) ∧
  loading (globalTimeout s) = false ∧
  loading (globalTimeout (Inline.onAuthStateChange_begin sess s).2) = false ∧
  loading (globalTimeout (Effect.onAuthStateChange_begin sess s).2) = false.
Proof.
  intros Hm. split_and!.
  - intros Hs. split.
    + by apply inline_begin_no_session.
    + by apply effect_begin_no_session.
  - intros s' r Hm'. split.
    + by apply inline_resume_loading.
    + by apply effect_resume_loading.
  - intros s' ev rest Hm'.
    destruct ev as [o|].
    + exists o. split_and!; [|done|by apply effect_resume_loading].
      simpl. apply WithTimeout.wrapper_run_stable. by destruct o.
    + exists (Rejected Effect.profileTimeoutError).
      split_and!; [|done|by apply effect_resume_loading].
      simpl. by apply WithTimeout.wrapper_run_stable.
  - by apply globalTimeout_loading.
  - apply globalTimeout_loading. by rewrite inline_begin_mounted.
  - apply globalTimeout_loading. by rewrite effect_begin_mounted.
Qed.

Lemma loading_reaches_false_witness :
  mounted initial = true ∧
  loading
    (Effect.onAuthStateChange_resume (Rejected Effect.profileTimeoutError)
       (Effect.onAuthStateChange_begin
          (Some (mkSession (Some (mkUser "u-1")))) initial).2).2
  = false.
Proof.
  split; [reflexivity|].
  exact (proj2 (proj1 (proj2
    (loading_reaches_false initial (Some (mkSession (Some (mkUser "u-1"))))
       eq_refl))
    (Effect.onAuthStateChange_begin
       (Some (mkSession (Some (mkUser "u-1")))) initial).2
    (Rejected Effect.profileTimeoutError) eq_refl)).
Defined.





(** C10. The two role flags are never both true, and both are false when
    there is no profile, in both forms of the provider: each is an equality
    test of [profile.role] against one of two distinct constants. *)
Theorem role_flags_exclusive (s : state) :
  Inline.isAdmin s && Inline.isRestaurantOwner s = false ∧
  Effect.isAdmin s && Effect.isRestaurantOwner s = false ∧
  (profile s = None →
   Inline.isAdmin s = false ∧ Inline.isRestaurantOwner s = false ∧
   Effect.isAdmin s = false ∧ Effect.isRestaurantOwner s = false).
Proof.
  unfold Inline.isAdmin, Inline.isRestaurantOwner, Effect.isAdmin,
    Effect.isRestaurantOwner, USER_ROLES.SUPER_ADMIN,
    USER_ROLES.RESTAURANT_OWNER.
  destruct (profile s) as [p|]; [|done].
  split_and!; [| |done].
  all: destruct (String.eqb_spec (role p) "super_admin") as [->|]; done.
Qed.

Lemma role_flags_exclusive_witness :
  profile initial = None ∧
  Inline.isAdmin initial = false ∧ Inline.isRestaurantOwner initial = false ∧
  Effect.isAdmin initial = false ∧ Effect.isRestaurantOwner initial = false.
Proof.
  split; [reflexivity|].
  exact (proj2 (proj2 (role_flags_exclusive initial)) eq_refl).
Defined.

(** *** Tenant resolution *)

(** A staff member, whose profile row carries the tenant. *)
Definition staff : Profile := mkProfile "p-1" "staff" (Some "t-9").

(** The first form of the provider, from the first render: a session is
    announced, and the profile query returns the row of [staff]. *)
Definition inline_staff_signed_in : state :=
  (Inline.onAuthStateChange_resume (Fulfilled (mkResponse (Some staff) None))
     (Inline.onAuthStateChange_begin
        (Some (mkSession (Some (mkUser "u-1")))) initial).2).2.

(** In the first form the tenant reference of the profile is not used: the
    profile of [staff] is stored, [tenantId] is not its [tenant_id], and no
    request is under way that could still set it. *)
Lemma tenant_resolution_inline_counterexample :
  profile inline_staff_signed_in = Some staff ∧
  tenantId inline_staff_signed_in ≠ tenant_id staff ∧
  requests inline_staff_signed_in = [ProfileByUser "u-1"].
Proof. split_and!; [reflexivity|discriminate|reflexivity]. Qed.

Lemma resolveTenant_resume_no_throw mounted_now r s e :
  (Effect.resolveTenant_resume mounted_now r s).1 ≠ Throw e.
Proof.
  unfold Effect.resolveTenant_resume.
  destruct r, mounted_now; unfold_stmt; done.
Qed.

Lemma resolveTenant_resume_tenantId r s :
  tenantId (Effect.resolveTenant_resume true r s).2
  = match r with
    | Fulfilled tenant => or_null (tenant_row_id <$> tenant)
    | Rejected _ => None
    end.
Proof. unfold Effect.resolveTenant_resume. destruct r; by unfold_stmt. Qed.

Lemma tenantLookup_resume_spec r s :
  (∀ e, (Inline.tenantLookup_resume r s).1 ≠ Throw e) ∧
  tenantId (Inline.tenantLookup_resume r s).2
  = match r with
    | Fulfilled resp =>
        match data resp with
        | Some row => if mounted s then Some (tenant_row_id row) else tenantId s
        | None => tenantId s
        end
    | Rejected _ => tenantId s
    end.
Proof.
  unfold Inline.tenantLookup_resume.
  destruct r as [[[row|] err]|err]; unfold_stmt; try done.
  by destruct (mounted s).
Qed.

(** The lookup of [resolveTenant] is deduplicated: when the effect runs
    again for the same owner while the lookup of its first run is cached,
    the lookup function is not invoked again. *)
Lemma resolveTenant_deduplicated s p :
  profile s = Some p → truthy (tenant_id p) = false →
  role p = "restaurant_owner" →
  Dedup.Sharing.activeRequests (cache s) !! Effect.lookup_key p = None →
  Dedup.Sharing.invocations_of (Effect.lookup_key p)
    (cache (Effect.resolveTenant_begin (Effect.resolveTenant_begin s).2).2)
  = S (Dedup.Sharing.invocations_of (Effect.lookup_key p) (cache s)).
Proof.
  intros Hp Ht Hr Hk.
  destruct (Dedup.Sharing.executeRequest_first
              (Effect.lookup_key p) (Effect.lookup_fn p) (cache s) Hk eq_refl)
    as (_ & (_ & _ & Hin) & _ & Hinv).
  unfold Effect.resolveTenant_begin at 2. rewrite Hp, Ht, Hr. simpl.
  destruct (Dedup.Sharing.executeRequest (Effect.lookup_key p)
              (Effect.lookup_fn p) (cache s)) as [q c] eqn:Hx.
  simpl in *. unfold Effect.resolveTenant_begin. simpl.
  rewrite ?Hp, Ht, Hr. simpl.
  destruct (Dedup.Sharing.executeRequest_cached
              (Effect.lookup_key p) (Effect.lookup_fn p) c _ Hin)
    as (_ & Hinv' & _).
  destruct (Dedup.Sharing.executeRequest (Effect.lookup_key p)
              (Effect.lookup_fn p) c) as [q' c'] eqn:Hx'.
  simpl in *. unfold Dedup.Sharing.invocations_of at 1.
  rewrite Hinv'. exact Hinv.
Qed.

Lemma invoked_by_executeRequest key fn
    (c : @Dedup.Sharing.state (option Tenant) Err) :
  Effect.invoked_by c (Dedup.Sharing.executeRequest key fn c).2
  = match Dedup.Sharing.activeRequests c !! key with
    | None => true
    | Some _ => false
    end.
Proof.
  unfold Effect.invoked_by, Dedup.Sharing.executeRequest.
  destruct (Dedup.Sharing.activeRequests c !! key); simpl.
  - apply Nat.ltb_irrefl.
  - destruct (Dedup.fn_throws fn); simpl; rewrite length_app; simpl;
      apply Nat.ltb_lt; lia.
Qed.

Lemma resolveTenant_resume_any m r s :
  tenantId (Effect.resolveTenant_resume m r s).2
  = if m then
      match r with
      | Fulfilled tenant => or_null (tenant_row_id <$> tenant)
      | Rejected _ => None
      end
    else tenantId s.
Proof.
  unfold Effect.resolveTenant_resume. destruct r, m; by unfold_stmt.
Qed.

(** C4, as the code has it.  In the second form of the provider,
    [resolveTenant] follows the three cases: a truthy [tenant_id] of the
    profile becomes [tenantId]; otherwise a restaurant owner's tenant is
    asked for through [executeRequest] under the key of the profile id,
    with a function that sends the query of [tenants] by [owner_id] when
    the cache invokes it and sends nothing when the key is cached, and the
    promise of the cache is awaited under a 3 second [withTimeout];
    otherwise [tenantId] becomes null; without a profile it is null.  When
    the awaited lookup settles while the effect is still mounted,
    [tenantId] becomes the id of the row found, or null if none was found,
    the lookup failed or timed out; when the effect was cleaned up in the
    meantime, [tenantId] is left as it is; and [resolveTenant] never
    throws.  In the first form only restaurant owners are looked up, by a
    plain query: the handler itself leaves [tenantId] as it is, and the
    lookup sets it when a row is found and leaves it as it is otherwise,
    without throwing. *)
Theorem tenant_resolution_policy (s : state) :
  (profile s = None →
     (Effect.resolveTenant_begin s).1 = Done Return ∧
     tenantId (Effect.resolveTenant_begin s).2 = None) ∧
  (∀ p, profile s = Some p →
     (truthy (tenant_id p) = true →
        (Effect.resolveTenant_begin s).1 = Done Return ∧
        tenantId (Effect.resolveTenant_begin s).2 = tenant_id p ∧
        requests (Effect.resolveTenant_begin s).2 = requests s) ∧
     (truthy (tenant_id p) = false → role p = "restaurant_owner" →
        ∃ w, (Effect.resolveTenant_begin s).1 = Awaiting w ∧
             Dedup.Sharing.executeRequest
               (String.append "tenant-lookup-" (id p)) (Effect.lookup_fn p)
               (cache s)
             = (Effect.tenantLookupPromise w,
                cache (Effect.resolveTenant_begin s).2) ∧
             Effect.tenant_deadline w = WithTimeout.withTimeout 3000 ∧
             tenantId (Effect.resolveTenant_begin s).2 = tenantId s ∧
             requests (Effect.resolveTenant_begin s).2
             = requests s ++
               match Dedup.Sharing.activeRequests (cache s)
                     !! String.append "tenant-lookup-" (id p) with
               | None => [TenantByOwner (id p)]
               | Some _ => []
               end) ∧
     (truthy (tenant_id p) = false → role p ≠ "restaurant_owner" →
        (Effect.resolveTenant_begin s).1 = Done Normal ∧
        tenantId (Effect.resolveTenant_begin s).2 = None ∧
        requests (Effect.resolveTenant_begin s).2 = requests s)) ∧
  (∀ s' mounted_now r,
     tenantId (Effect.resolveTenant_resume mounted_now r s').2
     = if mounted_now then
         match r with
         | Fulfilled tenant => or_null (tenant_row_id <$> tenant)
         | Rejected _ => None
         end
       else tenantId s') ∧
  (∀ r, failed r → ∃ e, Effect.lookup_result r = Rejected e) ∧
  (∀ r, ¬ failed r →
        ∃ resp, r = Fulfilled resp ∧
                Effect.lookup_result r = Fulfilled (data resp)) ∧
  (∀ rest,
     WithTimeout.wrapper
       (WithTimeout.run Effect.tenantTimeoutError
          (WithTimeout.TimerFires :: rest)
          (WithTimeout.withTimeout (V:=option Tenant) Effect.tenantTimeout_ms))
     = Settled (Rejected Effect.tenantTimeoutError)) ∧
  (∀ s' mounted_now r e,
     (Effect.resolveTenant_resume mounted_now r s').1 ≠ Throw e) ∧
  (∀ p s', mounted s' = true →
     tenantId (Inline.onAuthStateChange_resume
                 (Fulfilled (mkResponse (Some p) None)) s').2
     = tenantId s' ∧
     requests (Inline.onAuthStateChange_resume
                 (Fulfilled (mkResponse (Some p) None)) s').2
     = requests s' ++
       (if String.eqb (role p) "restaurant_owner"
        then [TenantByOwner (id p)] else [])) ∧
  (∀ s' r,
     (∀ e, (Inline.tenantLookup_resume r s').1 ≠ Throw e) ∧
     tenantId (Inline.tenantLookup_resume r s').2
     = match r with
       | Fulfilled resp =>
           match data resp with
           | Some row =>
               if mounted s' then Some (tenant_row_id row) else tenantId s'
           | None => tenantId s'
           end
       | Rejected _ => tenantId s'
       end).
Proof.
  split_and!.
  - intros Hp. unfold Effect.resolveTenant_begin. by rewrite Hp.
  - intros p Hp. unfold Effect.resolveTenant_begin. rewrite Hp. split_and!.
    + intros Ht. by rewrite Ht.
    + intros Ht Hr. rewrite Ht, Hr. simpl.
      pose proof (invoked_by_executeRequest (Effect.lookup_key p)
                    (Effect.lookup_fn p) (cache s)) as Hinv.
      destruct (Dedup.Sharing.executeRequest (Effect.lookup_key p)
                  (Effect.lookup_fn p) (cache s)) as [q c] eqn:Hx.
      eexists. split; [done|]. simpl in *.
      unfold Effect.lookup_key in *. rewrite Hx, Hinv. split_and!; try done.
      by destruct (Dedup.Sharing.activeRequests (cache s) !! _).
    + intros Ht Hr. rewrite Ht.
      destruct (String.eqb_spec (role p) "restaurant_owner"); done.
  - intros s' m r. apply resolveTenant_resume_any.
  - intros [resp|e] Hf; simpl in *; [|by eauto].
    destruct (error resp) as [e|]; [by eauto|done].
  - intros [resp|e] Hf; simpl in *; [|done].
    exists resp. split; [done|].
    destruct (error resp) as [e|]; [|done]. by destruct Hf.
  - intros rest. simpl. by apply WithTimeout.wrapper_run_stable.
  - intros s' m r e. apply resolveTenant_resume_no_throw.
  - intros p s' Hm.
    unfold Inline.onAuthStateChange_resume, Inline.tenantLookup_begin,
      USER_ROLES.RESTAURANT_OWNER.
    unfold_stmt. rewrite Hm. simpl.
    destruct (String.eqb (role p) "restaurant_owner"); simpl; [done|].
    by rewrite app_nil_r.
  - intros s' r. apply tenantLookup_resume_spec.
Qed.

Lemma tenant_resolution_policy_witness :
  profile (mkState None None (Some (mkProfile "p-1" "restaurant_owner" None))
             None false true Dedup.Sharing.init [])
  = Some (mkProfile "p-1" "restaurant_owner" None) ∧
  requests
    (Effect.resolveTenant_begin
       (mkState None None (Some (mkProfile "p-1" "restaurant_owner" None))
          None false true Dedup.Sharing.init [])).2
  = [TenantByOwner "p-1"].
Proof.
  split; [reflexivity|].
  destruct (proj1 (proj2 (proj1 (proj2
    (tenant_resolution_policy
       (mkState None None (Some (mkProfile "p-1" "restaurant_owner" None))
          None false true Dedup.Sharing.init [])))
    (mkProfile "p-1" "restaurant_owner" None) eq_refl)) eq_refl eq_refl)
    as (w & _ & _ & _ & _ & H).
  exact H.
Defined.

End Auth.

(** ** pages/POSSystem.tsx: the premium-gated page *)

Module POS.

(** What the page reads from [useAuth()]. *)
Record auth : Type := mkAuth {
  user : option Auth.User;
  loading : bool;
  isAdmin : bool;
  isRestaurantOwner : bool;
  tenantId : option string;
}.

(** A row of [tenants] under [select('id, subscription_plan')]. *)
Record tenant_row : Type := mkTenant {
  id : string;
  subscription_plan : string;
}.

(** The URL parameter and the three [useState] cells of the page. *)
Record page : Type := mkPage {
  slug : option string;
  tenant : option tenant_row;
  checkingSubscription : bool;
  loadingTimeout : bool;
}.

(** What the component returns. *)
Inductive view : Type :=
| LoadingScreen
| TimeoutScreen
| Navigate (to : string)
| NotFound
| POSDashboard.

(** [`${slug}`] for a [string | undefined]. *)
Definition template (v : option string) : string :=
  match v with
  | Some s => s
  | None => "undefined"
  end.

(** The subscription and ownership checks: the redirect they decide on, if
    any. *)
Definition guard (a : auth) (pg : page) : option view :=
  match tenant pg with
  | Some t =>
      if negb (isAdmin a) then
        if negb (String.eqb (subscription_plan t) "premium") then
          Some (Navigate (String.append "/pos-access/" (template (slug pg))))
        else if isRestaurantOwner a && Auth.truthy (tenantId a)
                && negb (bool_decide (Some (id t) = tenantId a)) then
          Some (Navigate "/dashboard")
        else None
      else None
  | None => None
  end.

(** The component from the login check on. *)
Definition guarded (a : auth) (pg : page) : view :=
  match user a with
  | None => Navigate "/auth"
  | Some _ =>
      match guard a pg with
      | Some redirect => redirect
      | None =>
          if negb (bool_decide (is_Some (tenant pg)))
             && negb (checkingSubscription pg) && Auth.truthy (slug pg)
          then NotFound
          else POSDashboard
      end
  end.

(** The component, in the form that shows the timeout screen only while
    something is still loading. *)
Definition POSSystem (a : auth) (pg : page) : view :=
  let isStillLoading :=
    (loading a || checkingSubscription pg) && negb (loadingTimeout pg) in
  let shouldShowTimeout :=
    loadingTimeout pg && (loading a || checkingSubscription pg) in
  if isStillLoading then LoadingScreen
  else if shouldShowTimeout then TimeoutScreen
  else guarded a pg.

(** The component, in the form that shows the timeout screen whenever the
    page timer has fired. *)
Definition POSSystem_timer (a : auth) (pg : page) : view :=
  if (loading a || checkingSubscription pg) && negb (loadingTimeout pg)
  then LoadingScreen
  else if loadingTimeout pg then TimeoutScreen
  else guarded a pg.

(** *** Properties of the guard *)

Lemma POSSystem_loaded a pg :
  loading a = false → checkingSubscription pg = false →
  POSSystem a pg = guarded a pg.
Proof.
  intros Hl Hc. unfold POSSystem. rewrite Hl, Hc. simpl.
  by rewrite andb_false_r.
Qed.

Lemma POSSystem_timer_loaded a pg :
  loading a = false → checkingSubscription pg = false →
  loadingTimeout pg = false →
  POSSystem_timer a pg = guarded a pg.
Proof. intros Hl Hc Ht. unfold POSSystem_timer. by rewrite Hl, Hc, Ht. Qed.

(** Once its timer has fired, that form shows the timeout screen and
    nothing else. *)
Lemma POSSystem_timer_fired a pg :
  loadingTimeout pg = true → POSSystem_timer a pg = TimeoutScreen.
Proof.
  intros Ht. unfold POSSystem_timer. rewrite Ht. by rewrite andb_false_r.
Qed.

Lemma guarded_not_premium a pg u t :
  user a = Some u → isAdmin a = false → tenant pg = Some t →
  subscription_plan t ≠ "premium" →
  guarded a pg
  = Navigate (String.append "/pos-access/" (template (slug pg))).
Proof.
  intros Hu Ha Ht Hp. unfold guarded, guard. rewrite Hu, Ht, Ha. simpl.
  by destruct (String.eqb_spec (subscription_plan t) "premium").
Qed.

Lemma guarded_other_tenant a pg u t own :
  user a = Some u → isAdmin a = false → isRestaurantOwner a = true →
  tenantId a = Some own → own ≠ "" → tenant pg = Some t →
  subscription_plan t = "premium" → id t ≠ own →
  guarded a pg = Navigate "/dashboard".
Proof.
  intros Hu Ha Ho Hid Hne Ht Hp Hdiff.
  unfold guarded, guard. rewrite Hu, Ht, Ha, Ho, Hid, Hp. simpl.
  destruct (String.eqb_spec own ""); [done|]. simpl.
  rewrite bool_decide_eq_false_2; [done|]. congruence.
Qed.

Lemma guard_admin a pg : isAdmin a = true → guard a pg = None.
Proof. intros Ha. unfold guard. rewrite Ha. by destruct (tenant pg). Qed.

Lemma guarded_admin a pg u to :
  user a = Some u → isAdmin a = true → guarded a pg ≠ Navigate to.
Proof.
  intros Hu Ha. unfold guarded. rewrite Hu, (guard_admin _ _ Ha).
  by case_match.
Qed.

(** C7. An authenticated user who is not an admin, on a page whose tenant
    row has been fetched and whose plan is not premium, is sent to the
    access page of the slug once nothing is loading any more. *)
Theorem premium_required_redirect (a : auth) (pg : page)
    (u : Auth.User) (t : tenant_row) (sl : string) :
  user a = Some u → isAdmin a = false → loading a = false →
  checkingSubscription pg = false → slug pg = Some sl →
  tenant pg = Some t → subscription_plan t ≠ "premium" →
  POSSystem a pg = Navigate (String.append "/pos-access/" sl).
Proof.
  intros Hu Ha Hl Hc Hs Ht Hp. rewrite POSSystem_loaded by done.
  rewrite (guarded_not_premium a pg u t) by done. by rewrite Hs.
Qed.

Lemma premium_required_redirect_witness :
  POSSystem
    (mkAuth (Some (Auth.mkUser "u-1")) false false true (Some "t-1"))
    (mkPage (Some "luigi") (Some (mkTenant "t-1" "free")) false false)
  = Navigate "/pos-access/luigi".
Proof.
  apply (premium_required_redirect _ _ (Auth.mkUser "u-1")
           (mkTenant "t-1" "free") "luigi");
    (reflexivity || discriminate).
Defined.

(** C8. A restaurant owner who is not an admin and whose tenant is known,
    on the page of another tenant whose plan is premium, is sent to the
    dashboard once nothing is loading any more. *)
Theorem foreign_tenant_redirect (a : auth) (pg : page)
    (u : Auth.User) (t : tenant_row) (own : string) :
  user a = Some u → isAdmin a = false → isRestaurantOwner a = true →
  tenantId a = Some own → own ≠ "" →
  loading a = false → checkingSubscription pg = false →
  tenant pg = Some t → subscription_plan t = "premium" → id t ≠ own →
  POSSystem a pg = Navigate "/dashboard".
Proof.
  intros Hu Ha Ho Hid Hne Hl Hc Ht Hp Hdiff.
  rewrite POSSystem_loaded by done. by eapply guarded_other_tenant.
Qed.

Lemma foreign_tenant_redirect_witness :
  POSSystem
    (mkAuth (Some (Auth.mkUser "u-1")) false false true (Some "t-A"))
    (mkPage (Some "mario") (Some (mkTenant "t-B" "premium")) false false)
  = Navigate "/dashboard".
Proof.
  apply (foreign_tenant_redirect _ _ (Auth.mkUser "u-1")
           (mkTenant "t-B" "premium") "t-A");
    (reflexivity || discriminate).
Defined.

(** C9. For an authenticated admin the page never redirects, whatever the
    plan of the tenant of the page and whatever the admin's own tenant:
    both checks are skipped.  This holds in both forms of the component. *)
Theorem admin_never_redirected (a : auth) (pg : page)
    (u : Auth.User) (to : string) :
  user a = Some u → isAdmin a = true →
  guard a pg = None ∧
  POSSystem a pg ≠ Navigate to ∧
  POSSystem_timer a pg ≠ Navigate to.
Proof.
  intros Hu Ha. split; [by apply guard_admin|].
  pose proof (guarded_admin a pg u to Hu Ha) as Hg.
  unfold POSSystem, POSSystem_timer. split; repeat case_match; done.
Qed.

Lemma admin_never_redirected_witness :
  POSSystem
    (mkAuth (Some (Auth.mkUser "root")) false true false None)
    (mkPage (Some "mario") (Some (mkTenant "t-B" "free")) false false)
  ≠ Navigate "/pos-access/mario".
Proof.
  exact (proj1 (proj2
    (admin_never_redirected
       (mkAuth (Some (Auth.mkUser "root")) false true false None)
       (mkPage (Some "mario") (Some (mkTenant "t-B" "free")) false false)
       (Auth.mkUser "root") "/pos-access/mario" eq_refl eq_refl))).
Defined.

End POS.

(** ** Further properties of the request cache *)

Module CacheLaws.
Import Dedup Dedup.Sharing.
Section CacheLaws.
Context {V E : Type}.
Implicit Types s : @state V E.

(** A cached promise is pending, and is the [finally] promise made for its
    key, with its callback still to run. *)
Definition cached_pending s : Prop :=
  ∀ key f,
    activeRequests s !! key = Some f →
    ∃ src, heap s !! f = Some (mkCell (KFinally src key false) Pending).

Lemma cached_pending_init : cached_pending (@init V E).
Proof. intros key f H. simpl in H. by rewrite lookup_empty in H. Qed.

Lemma cached_pending_step ev s :
  cached_pending s → cached_pending (step ev s).
Proof.
  intros Hc. destruct ev as [key fn|n o|p|i|t]; simpl; try exact Hc.
  - unfold executeRequest.
    destruct (activeRequests s !! key) as [f0|] eqn:Hk; simpl.
    + intros key' f Hf. destruct (Hc _ _ Hf) as [src Hsrc].
      exists src. by apply lookup_app_l_Some.
    + destruct (fn_throws fn) as [e|]; simpl.
      * intros key' f Hf. destruct (Hc _ _ Hf) as [src Hsrc].
        exists src. by apply lookup_app_l_Some.
      * intros key' f Hf. simpl in Hf. rewrite <- !app_assoc. simpl.
        destruct (decide (key = key')) as [<-|Hne].
        -- rewrite lookup_insert_eq in Hf. injection Hf as <-.
           exists (length (heap s)). rewrite length_app. simpl.
           rewrite lookup_app_r by lia.
           by replace (length (heap s) + 1 - length (heap s)) with 1 by lia.
        -- rewrite lookup_insert_ne in Hf by done.
           destruct (Hc _ _ Hf) as [src Hsrc].
           exists src. by apply lookup_app_l_Some.
  - intros key f Hf. simpl in *. destruct (Hc _ _ Hf) as [src Hsrc].
    exists src. by rewrite list_lookup_fmap, Hsrc.
  - unfold microtask.
    destruct (heap s !! p) as [[k st]|] eqn:Hp; [|exact Hc].
    destruct k as [n|src key [|]|src|], st as [|o']; try exact Hc.
    1-3: destruct (source_outcome s src); simpl; [|exact Hc].
    all: intros key' f Hf; simpl in *.
    2: destruct (decide (key = key')) as [<-|Hne];
         [by rewrite lookup_delete_eq in Hf
         |rewrite lookup_delete_ne in Hf by done].
    all: destruct (Hc _ _ Hf) as [src' Hsrc]; exists src'.
    all: rewrite list_lookup_insert_ne; [done|]; intros ->; congruence.
Qed.

Lemma cached_pending_run evs s :
  cached_pending s → cached_pending (run evs s).
Proof.
  revert s. induction evs as [|ev evs IH]; intros s H; [done|].
  simpl. by apply IH, cached_pending_step.
Qed.

(** X3. Whatever calls, settlements and reaction jobs have run, a key is
    in the cache exactly when a [finally] promise made for it has its
    callback still to run; that promise is then the cached one, and it is
    pending: the cache never holds a settled promise. *)
Theorem cache_holds_pending_promises (evs : list (event V E)) key f :
  activeRequests (run evs init) !! key = Some f ↔
  ∃ src,
    heap (run evs init) !! f = Some (mkCell (KFinally src key false) Pending).
Proof.
  split.
  - apply (cached_pending_run evs init cached_pending_init).
  - intros (src & Hf).
    by eapply (registered_run evs init registered_init).
Qed.

(** X1. Eviction.  When the operation in flight for a key settles, with
    whatever outcome, and the [finally] callback has run, the key is no
    longer cached, and the next call for it invokes its [requestFn] and
    starts a new operation. *)
Theorem settled_request_is_evicted s key p f n o fn :
  in_flight s key p f n → fn_throws fn = None →
  activeRequests (run [OpSettles n o; Microtask f] s) !! key = None ∧
  invocations_of key
    (executeRequest key fn (run [OpSettles n o; Microtask f] s)).2
  = S (invocations_of key s) ∧
  in_flight (executeRequest key fn (run [OpSettles n o; Microtask f] s)).2
    key (length (heap s)) (length (heap s) + 1) (length (invoked s)).
Proof.
  intros (Hp & Hf & Hk) Hfn. simpl.
  assert (microtask f (settle_op n o s)
          = mkState (delete key (activeRequests s))
              (<[f := mkCell (KFinally p key true) Pending]>
                 (settle_cell n o <$> heap s))
              (invoked s)) as ->.
  { unfold microtask, source_outcome, settle_op. simpl.
    rewrite list_lookup_fmap, Hf. simpl.
    rewrite list_lookup_fmap, Hp. simpl.
    unfold settle_cell at 1. simpl. by rewrite decide_True by done. }
  set (s' := mkState _ _ _).
  assert (activeRequests s' !! key = None) as Hk'
    by (simpl; apply lookup_delete_eq).
  destruct (executeRequest_first key fn s' Hk' Hfn) as (_ & Hin & _ & Hinv).
  assert (length (heap s') = length (heap s)) as Hlen
    by (simpl; by rewrite length_insert, length_fmap).
  rewrite Hlen in Hin. split_and!; done.
Qed.

(** X2. A call whose [requestFn] throws returns a promise rejected with
    what was thrown and leaves the cache as it was: the key is not cached,
    and the next call for it invokes its own [requestFn]. *)
Theorem throwing_request_is_not_cached s key fn e fn' :
  activeRequests s !! key = None →
  fn_throws fn = Some e → fn_throws fn' = None →
  activeRequests (executeRequest key fn s).2 = activeRequests s ∧
  settled (executeRequest key fn s).2 (executeRequest key fn s).1
    (Rejected e) ∧
  invocations_of key
    (executeRequest key fn' (executeRequest key fn s).2).2
  = S (S (invocations_of key s)).
Proof.
  intros Hk Hfn Hfn'.
  assert (executeRequest key fn s
          = (length (heap s),
             mkState (activeRequests s)
               (heap s ++ [mkCell KThrown (Settled (Rejected e))])
               (invoked s ++ [(key, fn_id fn)]))) as ->.
  { unfold executeRequest. by rewrite Hk, Hfn. }
  simpl. split_and!.
  - done.
  - unfold settled. simpl. rewrite lookup_app_r by lia.
    by rewrite Nat.sub_diag.
  - set (s' := mkState _ _ _).
    destruct (executeRequest_first key fn' s' Hk Hfn') as (_ & _ & _ & ->).
    f_equal. unfold invocations_of, s'. simpl.
    rewrite invocations_of_snoc. by rewrite decide_True by done.
Qed.

End CacheLaws.

Lemma settled_request_is_evicted_witness :
  activeRequests
    (run [OpSettles 0 (Rejected "offline"); Microtask 1]
       (executeRequest "menu" (mkFn 0 None) (@init nat string)).2)
    !! "menu" = None.
Proof.
  assert (in_flight (executeRequest "menu" (mkFn 0 None) (@init nat string)).2
            "menu" 0 1 0) as Hin by (vm_compute; done).
  exact (proj1 (settled_request_is_evicted _ "menu" 0 1 0
                  (Rejected "offline") (mkFn 1 None) Hin eq_refl)).
Defined.

Lemma throwing_request_is_not_cached_witness :
  invocations_of "menu"
    (executeRequest "menu" (mkFn 1 None)
       (executeRequest "menu" (mkFn 0 (Some "TypeError"))
          (@init nat string)).2).2
  = 2.
Proof.
  exact (proj2 (proj2
    (throwing_request_is_not_cached (V:=nat) init "menu"
       (mkFn 0 (Some "TypeError")) "TypeError" (mkFn 1 None)
       eq_refl eq_refl eq_refl))).
Defined.

End CacheLaws.

(** ** Further properties of the timeout wrapper *)

Module TimerLaws.
Import WithTimeout.
Section TimerLaws.
Context {V E : Type}.




End TimerLaws.
End TimerLaws.

(** ** Further properties of the polling form of the cache *)

Module PollingLaws.
Import Dedup Dedup.Polling.
Section PollingLaws.
Context {V E : Type}.
Variable requestTimeout : E.
Implicit Types s : @state V E.

Lemma state_of_update_cell p f s q :
  (∀ c o, heap s !! p = Some c → cstate c = Settled o →
          cstate (f c) = Settled o) →
  ∀ o, state_of s q = Some (Settled o) →
       state_of (update_cell p f s) q = Some (Settled o).
Proof.
  intros Hf o Hq. unfold update_cell.
  destruct (heap s !! p) as [c|] eqn:Hp; [|done].
  unfold state_of in *. simpl.
  destruct (decide (p = q)) as [->|Hne].
  - rewrite list_lookup_insert_eq by (by eapply lookup_lt_Some).
    rewrite Hp in Hq. simpl in *. f_equal. apply Hf; congruence.
  - by rewrite list_lookup_insert_ne.
Qed.

Lemma state_of_executeRequest key fn s q o :
  state_of s q = Some (Settled o) →
  state_of (executeRequest key fn s).2 q = Some (Settled o).
Proof.
  unfold state_of, executeRequest. intros Hq.
  destruct (heap s !! q) as [c|] eqn:Hc; [|done].
  case_decide; simpl.
  - rewrite <- app_assoc. by rewrite (lookup_app_l_Some _ _ _ _ Hc).
  - destruct (fn_throws fn); simpl.
    + by rewrite (lookup_app_l_Some _ _ _ _ Hc).
    + rewrite <- app_assoc. by rewrite (lookup_app_l_Some _ _ _ _ Hc).
Qed.

Lemma state_of_clearInterval i s q :
  state_of (clearInterval i s) q = state_of s q.
Proof. unfold clearInterval. by destruct (intervals s !! i). Qed.

Lemma step_keeps_settled ev s q o :
  state_of s q = Some (Settled o) →
  state_of (step requestTimeout ev s) q = Some (Settled o).
Proof.
  intros Hq. destruct ev as [key fn|n o'|p|i|t]; simpl.
  - by apply state_of_executeRequest.
  - unfold state_of, settle_op in *. simpl. rewrite list_lookup_fmap.
    destruct (heap s !! q) as [[k st]|]; [|done]. simpl in *.
    unfold settle_cell. simpl. destruct k; try done.
    case_decide; [|done]. simpl. by simplify_eq.
  - unfold microtask.
    destruct (heap s !! p) as [[k st]|] eqn:Hp; [|done].
    destruct k as [n|src key|[src|]|src|], st as [|o']; try done.
    all: destruct (source_outcome s src); [|done].
    2,3: apply state_of_update_cell; [|done]; intros c o1 Hc;
         rewrite Hp in Hc; by simplify_eq.
    unfold state_of in *. simpl.
    destruct (decide (p = q)) as [->|Hne].
    + rewrite Hp in Hq. by simplify_eq.
    + by rewrite list_lookup_insert_ne.
  - unfold interval_tick.
    destruct (intervals s !! i) as [iv|]; [|done].
    destruct (iactive iv); [|done]. case_decide; [|done].
    destruct (executeRequest (ikey iv) (ifn iv) (clearInterval i s))
      as [q' s'] eqn:Hx.
    apply state_of_update_cell; [done|].
    change s' with (q', s').2. rewrite <- Hx.
    apply state_of_executeRequest. by rewrite state_of_clearInterval.
  - unfold timeout_fires.
    destruct (timeouts s !! t) as [tm|]; [|done].
    destruct (tarmed tm); [|done].
    apply state_of_update_cell.
    + intros c o1 _ Hc. simpl. by rewrite Hc.
    + by rewrite state_of_clearInterval.
Qed.

(** X6. In the polling form a promise that has settled keeps its outcome
    under every later task.  In particular the 30 second timer of a
    waiting caller, which is never cleared, does not change a result that
    was already delivered. *)
Theorem polling_settled_is_final (evs : list (event V E)) s q o :
  state_of s q = Some (Settled o) →
  state_of (run requestTimeout evs s) q = Some (Settled o).
Proof.
  revert s. induction evs as [|ev evs IH]; intros s Hq; [done|].
  simpl. by apply IH, step_keeps_settled.
Qed.

(** X7. In the polling form the key is released however the first call
    ends: when [requestFn] throws, the set of active keys is as before the
    call; and when the awaited promise has settled, fulfilled or rejected,
    the continuation of the call releases the key and settles the call
    with that outcome. *)
Theorem polling_releases_key s key :
  (∀ fn e,
     key ∉ activeRequests s → fn_throws fn = Some e →
     activeRequests (executeRequest key fn s).2 = activeRequests s) ∧
  (∀ q src o,
     heap s !! q = Some (mkCell (KBody src key) Pending) →
     state_of s src = Some (Settled o) →
     (key ∉ activeRequests (microtask q s)) ∧
     state_of (microtask q s) q = Some (Settled o)).
Proof.
  split.
  - intros fn e Hk Hfn. unfold executeRequest.
    rewrite decide_False by done. rewrite Hfn. simpl. set_solver.
  - intros q src o Hq Hsrc. unfold microtask, source_outcome. rewrite Hq.
    unfold state_of in Hsrc.
    destruct (heap s !! src) as [[k st]|]; [|done]. simpl in Hsrc.
    injection Hsrc as ->. simpl. split; [set_solver|].
    unfold state_of. simpl.
    by rewrite list_lookup_insert_eq by (by eapply lookup_lt_Some).
Qed.





End PollingLaws.

Lemma polling_settled_is_final_witness :
  state_of
    (run "Request timeout" [TimeoutFires 0; Microtask 2; Microtask 3]
       (run "Request timeout" racing_schedule (@init nat string)))
    3
  = Some (Settled (Rejected "row lock")).
Proof.
  apply polling_settled_is_final. vm_compute. reflexivity.
Defined.

Lemma polling_releases_key_witness :
  activeRequests
    (executeRequest "menu" (mkFn 0 (Some "TypeError")) (@init nat string)).2
  = activeRequests (@init nat string).
Proof.
  apply (proj1 (polling_releases_key init "menu") _ "TypeError");
    [set_solver|reflexivity].
Defined.


End PollingLaws.

(** ** Further properties of the authentication context *)

Module ProviderLaws.
Import Auth.

(** The tasks the event loop may run for the provider, in its first form:
    a notification of the backend, the settlement of a profile query or of
    a tenant lookup, the safety-net timer, and the cleanup of the effect. *)
Inductive inline_event : Type :=
| IAuthChange (sess : option Session)
| IProfileSettles (r : outcome (response Profile) Err)
| ITenantSettles (r : outcome (response Tenant) Err)
| IGlobalTimeout
| IUnmount.

Definition inline_step (ev : inline_event) (s : state) : state :=
  match ev with
  | IAuthChange sess => (Inline.onAuthStateChange_begin sess s).2
  | IProfileSettles r => (Inline.onAuthStateChange_resume r s).2
  | ITenantSettles r => (Inline.tenantLookup_resume r s).2
  | IGlobalTimeout => globalTimeout s
  | IUnmount => unmount s
  end.

Definition inline_run (evs : list inline_event) (s : state) : state :=
  foldl (λ s ev, inline_step ev s) s evs.

(** The same for the second form, where tenant resolution is an effect of
    its own: a run of the effect, and the settlement of its wrapped lookup,
    with the value its [mounted] has by then. *)
Inductive effect_event : Type :=
| EAuthChange (sess : option Session)
| EProfileSettles (r : outcome (response Profile) Err)
| EResolveTenant
| ETenantSettles (mounted_now : bool) (r : outcome (option Tenant) Err)
| EGlobalTimeout
| EUnmount.

Definition effect_step (ev : effect_event) (s : state) : state :=
  match ev with
  | EAuthChange sess => (Effect.onAuthStateChange_begin sess s).2
  | EProfileSettles r => (Effect.onAuthStateChange_resume r s).2
  | EResolveTenant => (Effect.resolveTenant_begin s).2
  | ETenantSettles m r => (Effect.resolveTenant_resume m r s).2
  | EGlobalTimeout => globalTimeout s
  | EUnmount => unmount s
  end.

Definition effect_run (evs : list effect_event) (s : state) : state :=
  foldl (λ s ev, effect_step ev s) s evs.

(** [user] mirrors the user of [session]. *)
Definition mirrors (s : state) : Prop :=
  user s = session s ≫= session_user.

Lemma state_eta (s : state) :
  mkState (user s) (session s) (profile s) (tenantId s) (loading s)
          (mounted s) (cache s) (requests s) = s.
Proof. by destruct s. Qed.

Lemma inline_step_unmounted ev s :
  mounted s = false → inline_step ev s = s.
Proof.
  intros Hm. destruct ev as [sess|r|r| |]; simpl.
  - unfold Inline.onAuthStateChange_begin. by rewrite Hm.
  - unfold Inline.onAuthStateChange_resume.
    destruct r as [[d [err|]]|err]; unfold_stmt; by rewrite Hm.
  - unfold Inline.tenantLookup_resume.
    destruct r as [[[row|] err]|err]; unfold_stmt; by rewrite ?Hm.
  - unfold globalTimeout. by rewrite Hm.
  - unfold unmount. rewrite <- Hm. apply state_eta.
Qed.

Lemma effect_handlers_unmounted s :
  mounted s = false →
  (∀ sess, Effect.onAuthStateChange_begin sess s = (Done Return, s)) ∧
  (∀ r, (Effect.onAuthStateChange_resume r s).2 = s).
Proof.
  intros Hm. split.
  - intros sess. unfold Effect.onAuthStateChange_begin. by rewrite Hm.
  - intros r. unfold Effect.onAuthStateChange_resume.
    destruct r as [[d [err|]]|err]; unfold_stmt; rewrite Hm; simpl;
      by rewrite ?Hm.
Qed.

(** X8. After the cleanup of the auth effect nothing that is still under
    way changes the state of the provider: in the first form no later
    notification, settlement or timer does, whatever their order; in the
    second form neither a notification nor the settlement of a profile
    query does, and the settlement of a tenant lookup whose effect has been
    cleaned up changes nothing in any state. *)
Theorem unmounted_provider_is_frozen (s : state) :
  (∀ evs, inline_run evs (unmount s) = unmount s) ∧
  (∀ sess,
     Effect.onAuthStateChange_begin sess (unmount s)
     = (Done Return, unmount s)) ∧
  (∀ r, (Effect.onAuthStateChange_resume r (unmount s)).2 = unmount s) ∧
  globalTimeout (unmount s) = unmount s ∧
  (∀ r, (Effect.resolveTenant_resume false r s).2 = s).
Proof.
  split_and!.
  - intros evs. induction evs as [|ev evs IH]; [done|].
    simpl. by rewrite inline_step_unmounted.
  - apply effect_handlers_unmounted. done.
  - apply effect_handlers_unmounted. done.
  - done.
  - intros r. unfold Effect.resolveTenant_resume.
    destruct r; by unfold_stmt.
Qed.

Lemma mirrors_inline_step ev s : mirrors s → mirrors (inline_step ev s).
Proof.
  unfold mirrors. intros H. destruct ev as [sess|r|r| |]; simpl.
  - unfold Inline.onAuthStateChange_begin.
    destruct (mounted s) eqn:Hm; simpl; [|done].
    destruct (sess ≫= session_user) eqn:Hs; unfold_stmt; rewrite ?Hm;
      simpl; by rewrite Hs.
  - unfold Inline.onAuthStateChange_resume, Inline.tenantLookup_begin.
    destruct r as [[[p|] [err|]]|err]; unfold_stmt;
      destruct (mounted s); simpl; try done.
    by destruct (String.eqb (role p) USER_ROLES.RESTAURANT_OWNER).
  - unfold Inline.tenantLookup_resume.
    destruct r as [[[row|] err]|err]; unfold_stmt; try done.
    by destruct (mounted s).
  - unfold globalTimeout. by destruct (mounted s).
  - done.
Qed.

Lemma mirrors_effect_step ev s : mirrors s → mirrors (effect_step ev s).
Proof.
  unfold mirrors. intros H. destruct ev as [sess|r| |m r| |]; simpl.
  - unfold Effect.onAuthStateChange_begin.
    destruct (mounted s) eqn:Hm; simpl; [|done].
    destruct (sess ≫= session_user) eqn:Hs; unfold_stmt; rewrite ?Hm;
      simpl; by rewrite Hs.
  - unfold Effect.onAuthStateChange_resume.
    destruct r as [[d [err|]]|err]; unfold_stmt;
      destruct (mounted s) eqn:Hm; simpl; rewrite ?Hm; done.
  - unfold Effect.resolveTenant_begin.
    destruct (profile s) as [p|]; [|done].
    destruct (truthy (tenant_id p)); [done|].
    destruct (String.eqb (role p) "restaurant_owner"); [|done].
    by destruct (Dedup.Sharing.executeRequest _ _ _).
  - unfold Effect.resolveTenant_resume. destruct r, m; by unfold_stmt.
  - unfold globalTimeout. by destruct (mounted s).
  - done.
Qed.

(** X9. In both forms of the provider, after any notifications,
    settlements, timers and cleanups since the first render, [user] is the
    user of [session], and null when there is no session. *)
Theorem user_mirrors_session
    (ievs : list inline_event) (eevs : list effect_event) :
  user (inline_run ievs initial)
  = session (inline_run ievs initial) ≫= session_user ∧
  user (effect_run eevs initial)
  = session (effect_run eevs initial) ≫= session_user.
Proof.
  split.
  - assert (∀ s, mirrors s → mirrors (inline_run ievs s)) as H.
    { induction ievs as [|ev evs IH]; intros s Hs; [done|].
      simpl. by apply IH, mirrors_inline_step. }
    by apply H.
  - assert (∀ s, mirrors s → mirrors (effect_run eevs s)) as H.
    { induction eevs as [|ev evs IH]; intros s Hs; [done|].
      simpl. by apply IH, mirrors_effect_step. }
    by apply H.
Qed.

(** X10. No task of the provider sets [loading] back to true: once it is
    false it stays false, in both forms, whatever follows. *)
Theorem loading_never_returns (s : state)
    (ievs : list inline_event) (eevs : list effect_event) :
  loading s = false →
  loading (inline_run ievs s) = false ∧ loading (effect_run eevs s) = false.
Proof.
  intros Hl. split.
  - revert s Hl. induction ievs as [|ev evs IH]; intros s Hl; [done|].
    simpl. apply IH. destruct (loading_stays_false s Hl)
      as (Hb & Hr & Ht & _ & _ & Hg).
    destruct ev as [sess|r|r| |]; simpl;
      [apply Hb|apply Hr|apply Ht|apply Hg|done].
  - revert s Hl. induction eevs as [|ev evs IH]; intros s Hl; [done|].
    simpl. apply IH. destruct (loading_stays_false s Hl)
      as (Hb & Hr & _ & Ht & Hrt & Hg).
    destruct ev as [sess|r| |m r| |]; simpl;
      [apply Hb|apply Hr|apply Hrt|apply Ht|apply Hg|done].
Qed.

Lemma loading_never_returns_witness :
  loading
    (effect_run
       [EAuthChange (Some (mkSession (Some (mkUser "u-2"))));
        EProfileSettles (Rejected Effect.profileTimeoutError);
        EResolveTenant]
       (globalTimeout initial))
  = false.
Proof.
  exact (proj2 (loading_never_returns (globalTimeout initial) [] _ eq_refl)).
Defined.

(** X11. A notification without a session clears the identity: in the
    first form the handler clears [user], [profile] and [tenantId] and ends
    loading; in the second form it clears [user] and [profile], leaves
    [tenantId] to the effect, and the run of [resolveTenant] that follows
    the change of [profile] clears it. *)
Theorem no_session_clears_identity (s : state) (sess : option Session) :
  mounted s = true → sess ≫= session_user = None →
  (let s1 := (Inline.onAuthStateChange_begin sess s).2 in
   session s1 = sess ∧ user s1 = None ∧ profile s1 = None ∧
   tenantId s1 = None ∧ loading s1 = false) ∧
  (let s2 := (Effect.onAuthStateChange_begin sess s).2 in
   session s2 = sess ∧ user s2 = None ∧ profile s2 = None ∧
   tenantId s2 = tenantId s ∧ loading s2 = false ∧
   tenantId (Effect.resolveTenant_begin s2).2 = None ∧
   profile (Effect.resolveTenant_begin s2).2 = None).
Proof.
  intros Hm Hs.
  unfold Inline.onAuthStateChange_begin, Effect.onAuthStateChange_begin,
    Effect.resolveTenant_begin.
  rewrite Hm, Hs. unfold_stmt. rewrite Hm. simpl. by rewrite ?Hs.
Qed.

Lemma no_session_clears_identity_witness :
  tenantId
    (Inline.onAuthStateChange_begin None
       (mkState (Some (mkUser "u-1")) (Some (mkSession (Some (mkUser "u-1"))))
          (Some (mkProfile "p-1" "restaurant_owner" None)) (Some "t-1")
          false true Dedup.Sharing.init [])).2
  = None.
Proof.
  exact (proj1 (proj2 (proj2 (proj2 (proj1
    (no_session_clears_identity
       (mkState (Some (mkUser "u-1")) (Some (mkSession (Some (mkUser "u-1"))))
          (Some (mkProfile "p-1" "restaurant_owner" None)) (Some "t-1")
          false true Dedup.Sharing.init [])
       None eq_refl eq_refl)))))).
Defined.

End ProviderLaws.

(** ** lib/constants.ts and pages/Dashboard.tsx: roles and the dashboard *)

Module Roles.
Import Auth.

(** [Object.values(USER_ROLES)]. *)
Definition USER_ROLES_values : list string :=
  [USER_ROLES.SUPER_ADMIN; USER_ROLES.RESTAURANT_OWNER].

(** The type guard [isValidRole], on a [string | undefined | null]. *)
Definition isValidRole (role : option string) : bool :=
  if negb (truthy role) then false
  else match role with
       | Some r => bool_decide (r ∈ USER_ROLES_values)
       | None => false
       end.

(** The value the provider hands to its consumers, with the fields the
    pages read. *)
Record context : Type := mkContext {
  user : option User;
  profile : option Profile;
  tenantId : option string;
  loading : bool;
  isAdmin : bool;
  isRestaurantOwner : bool;
}.

Definition inline_value (s : state) : context :=
  mkContext (Auth.user s) (Auth.profile s) (Auth.tenantId s) (Auth.loading s)
            (Inline.isAdmin s) (Inline.isRestaurantOwner s).

Definition effect_value (s : state) : context :=
  mkContext (Auth.user s) (Auth.profile s) (Auth.tenantId s) (Auth.loading s)
            (Effect.isAdmin s) (Effect.isRestaurantOwner s).

(** What the dashboard page returns; the role error page carries the role
    it names as invalid, if it names one. *)
Inductive dashboard_view : Type :=
| Loading
| Navigate (to : string)
| SuperAdminDashboard
| RestaurantDashboard
| RoleError (invalidRole : option string).

Definition Dashboard (c : context) : dashboard_view :=
  if loading c then Loading
  else match user c with
       | None => Navigate "/auth"
       | Some _ =>
           if isAdmin c then SuperAdminDashboard
           else if isRestaurantOwner c then RestaurantDashboard
           else
             let role := role <$> profile c in
             RoleError (if truthy role && negb (isValidRole role)
                        then role else None)
       end.

Lemma isValidRole_eqb r :
  isValidRole (Some r)
  = String.eqb r "super_admin" || String.eqb r "restaurant_owner".
Proof.
  unfold isValidRole, USER_ROLES_values, truthy,
    USER_ROLES.SUPER_ADMIN, USER_ROLES.RESTAURANT_OWNER.
  destruct (String.eqb_spec r "super_admin") as [->|H1]; [done|].
  destruct (String.eqb_spec r "restaurant_owner") as [->|H2]; [done|].
  destruct (String.eqb_spec r "") as [->|H3]; [done|]. simpl.
  apply bool_decide_eq_false_2. set_solver.
Qed.

(** X12. A role is valid exactly when it is one of the two role constants;
    null and the empty string are not.  So for a provider with a profile,
    the role of the profile is valid exactly when one of the two role flags
    is set, in both forms of the provider. *)
Theorem valid_role_iff_flag (role : option string) (s : state) :
  (isValidRole role = true ↔
   role = Some "super_admin" ∨ role = Some "restaurant_owner") ∧
  isValidRole (Auth.role <$> Auth.profile s)
  = Inline.isAdmin s || Inline.isRestaurantOwner s ∧
  isValidRole (Auth.role <$> Auth.profile s)
  = Effect.isAdmin s || Effect.isRestaurantOwner s.
Proof.
  split_and!.
  - destruct role as [r|]; [|by split; [|intros [|]]].
    rewrite isValidRole_eqb. split.
    + intros [H|H]%orb_true_iff; apply String.eqb_eq in H; subst; eauto.
    + by intros [[= ->]|[= ->]].
  - unfold Inline.isAdmin, Inline.isRestaurantOwner,
      USER_ROLES.SUPER_ADMIN, USER_ROLES.RESTAURANT_OWNER.
    destruct (Auth.profile s) as [p|]; [|done]. apply isValidRole_eqb.
  - unfold Effect.isAdmin, Effect.isRestaurantOwner.
    destruct (Auth.profile s) as [p|]; [|done]. apply isValidRole_eqb.
Qed.

(** X13. Once loading is over and a user is signed in, the dashboard page
    shows the admin dashboard exactly for the role [super_admin], the
    restaurant dashboard exactly for [restaurant_owner], and the role error
    page otherwise: without a profile, or for any other role, among them
    [staff].  The error page names the role whenever the profile has a
    non-empty one.  This holds for both forms of the provider. *)
Theorem dashboard_follows_role (s : state) (u : User) :
  Auth.loading s = false → Auth.user s = Some u →
  Dashboard (inline_value s) = Dashboard (effect_value s) ∧
  Dashboard (effect_value s)
  = match Auth.profile s with
    | None => RoleError None
    | Some p =>
        if String.eqb (Auth.role p) "super_admin" then SuperAdminDashboard
        else if String.eqb (Auth.role p) "restaurant_owner"
             then RestaurantDashboard
             else RoleError (if String.eqb (Auth.role p) "" then None
                             else Some (Auth.role p))
    end.
Proof.
  intros Hl Hu. split; [done|].
  unfold Dashboard, effect_value. simpl. rewrite Hl, Hu.
  unfold Effect.isAdmin, Effect.isRestaurantOwner.
  destruct (Auth.profile s) as [p|]; [|done]. simpl.
  rewrite isValidRole_eqb.
  destruct (String.eqb (Auth.role p) "super_admin"); [done|].
  destruct (String.eqb (Auth.role p) "restaurant_owner"); [done|].
  simpl. rewrite andb_true_r.
  by destruct (String.eqb (Auth.role p) "").
Qed.

Lemma dashboard_follows_role_witness :
  Dashboard
    (inline_value
       (mkState (Some (mkUser "u-1")) None
          (Some (mkProfile "p-1" "staff" (Some "t-9"))) None false true
          Dedup.Sharing.init []))
  = RoleError (Some "staff").
Proof.
  destruct (dashboard_follows_role
              (mkState (Some (mkUser "u-1")) None
                 (Some (mkProfile "p-1" "staff" (Some "t-9"))) None false true
                 Dedup.Sharing.init [])
              (mkUser "u-1") eq_refl eq_refl) as [-> ->].
  reflexivity.
Defined.

End Roles.

(** ** Further properties of the premium-gated page *)

Module PageLaws.
Import POS.

Lemma guard_redirects a pg v :
  guard a pg = Some v →
  v = Navigate "/dashboard" ∨
  v = Navigate (String.append "/pos-access/" (template (slug pg))).
Proof.
  unfold guard. intros H.
  repeat case_match; simplify_eq; eauto.
Qed.

Lemma guarded_views a pg :
  guarded a pg ≠ LoadingScreen ∧ guarded a pg ≠ TimeoutScreen.
Proof.
  unfold guarded. destruct (user a); [|done].
  destruct (guard a pg) as [v|] eqn:Hg.
  - by destruct (guard_redirects _ _ _ Hg) as [->| ->].
  - by case_match.
Qed.

Lemma guarded_auth a pg :
  guarded a pg = Navigate "/auth" ↔ user a = None.
Proof.
  unfold guarded. destruct (user a) as [u|]; [|done]. split; [|done].
  destruct (guard a pg) as [v|] eqn:Hg.
  - by destruct (guard_redirects _ _ _ Hg) as [->| ->].
  - by case_match.
Qed.

(** While [checkingSubscription] is true the component redirects nowhere,
    and while the tenant state is null the only redirect it can make is the
    one to the login page, in both forms of the page. *)
Theorem no_redirect_without_tenant (a : auth) (pg : page) (to : string) :
  (checkingSubscription pg = true →
   POSSystem a pg ≠ Navigate to ∧ POSSystem_timer a pg ≠ Navigate to) ∧
  (tenant pg = None → to ≠ "/auth" →
   POSSystem a pg ≠ Navigate to ∧ POSSystem_timer a pg ≠ Navigate to).
Proof.
  split.
  - intros Hc. unfold POSSystem, POSSystem_timer. rewrite Hc.
    rewrite orb_true_r. simpl. by destruct (loadingTimeout pg).
  - intros Ht Hto.
    assert (guarded a pg ≠ Navigate to) as Hg.
    { unfold guarded, guard. rewrite Ht.
      destruct (user a); [|congruence]. by case_match. }
    unfold POSSystem, POSSystem_timer. split; repeat case_match; done.
Qed.

Lemma no_redirect_without_tenant_witness :
  POSSystem
    (mkAuth (Some (Auth.mkUser "u-1")) false false true None)
    (mkPage (Some "unknown-slug") None false false)
  ≠ Navigate "/pos-access/unknown-slug".
Proof.
  apply (proj2 (no_redirect_without_tenant
                  (mkAuth (Some (Auth.mkUser "u-1")) false false true None)
                  (mkPage (Some "unknown-slug") None false false)
                  "/pos-access/unknown-slug"));
    [reflexivity|discriminate].
Defined.

(** X15. The page sends the visitor to the login page exactly when nothing
    is loading any more and there is no user; in the form whose timeout
    screen depends on the timer alone, only if moreover the timer has not
    fired. *)
Theorem login_redirect_iff (a : auth) (pg : page) :
  (POSSystem a pg = Navigate "/auth" ↔
   user a = None ∧ loading a = false ∧ checkingSubscription pg = false) ∧
  (POSSystem_timer a pg = Navigate "/auth" ↔
   user a = None ∧ loading a = false ∧ checkingSubscription pg = false ∧
   loadingTimeout pg = false).
Proof.
  pose proof (guarded_auth a pg) as Hg.
  unfold POSSystem, POSSystem_timer.
  destruct (loading a), (checkingSubscription pg), (loadingTimeout pg);
    simpl; rewrite ?Hg; split; split; intros; destruct_and?; done.
Qed.

(** X16. The two forms of the page return the same view unless the page
    timer has fired after everything was loaded; then the one shows the
    timeout screen, whatever the user and the tenant, and the other goes on
    to the checks and never shows the timeout screen. *)
Theorem forms_differ_after_timer_only (a : auth) (pg : page) :
  (loadingTimeout pg = false ∨ loading a = true
   ∨ checkingSubscription pg = true →
   POSSystem a pg = POSSystem_timer a pg) ∧
  (loadingTimeout pg = true → loading a = false →
   checkingSubscription pg = false →
   POSSystem_timer a pg = TimeoutScreen ∧
   POSSystem a pg = guarded a pg ∧
   POSSystem a pg ≠ TimeoutScreen).
Proof.
  pose proof (guarded_views a pg) as [_ Hg].
  unfold POSSystem, POSSystem_timer. split.
  - destruct (loading a), (checkingSubscription pg), (loadingTimeout pg);
      simpl; try done; intros [|[|]]; done.
  - by intros -> -> ->.
Qed.

Lemma forms_differ_after_timer_only_witness :
  POSSystem_timer
    (mkAuth (Some (Auth.mkUser "u-1")) false false true (Some "t-1"))
    (mkPage (Some "luigi") (Some (mkTenant "t-1" "premium")) false true)
  = TimeoutScreen ∧
  POSSystem
    (mkAuth (Some (Auth.mkUser "u-1")) false false true (Some "t-1"))
    (mkPage (Some "luigi") (Some (mkTenant "t-1" "premium")) false true)
  ≠ TimeoutScreen.
Proof.
  destruct (proj2 (forms_differ_after_timer_only
              (mkAuth (Some (Auth.mkUser "u-1")) false false true (Some "t-1"))
              (mkPage (Some "luigi") (Some (mkTenant "t-1" "premium"))
                 false true)) eq_refl eq_refl eq_refl) as (H1 & _ & H3).
  exact (conj H1 H3).
Defined.

(** X17. For a signed-in visitor of a premium tenant, once nothing is
    loading, the page redirects to the dashboard exactly when the visitor
    is not an admin, is a restaurant owner, and has a non-empty own tenant
    that differs from the tenant of the page; in every other case it shows
    the POS dashboard.  In particular a restaurant owner whose own tenant
    is still null is shown the POS dashboard of any premium tenant. *)
Theorem ownership_redirect_iff (a : auth) (pg : page)
    (u : Auth.User) (t : tenant_row) :
  user a = Some u → loading a = false → checkingSubscription pg = false →
  tenant pg = Some t → subscription_plan t = "premium" →
  (POSSystem a pg = Navigate "/dashboard" ↔
   isAdmin a = false ∧ isRestaurantOwner a = true ∧
   ∃ own, tenantId a = Some own ∧ own ≠ "" ∧ own ≠ id t) ∧
  (POSSystem a pg ≠ Navigate "/dashboard" → POSSystem a pg = POSDashboard).
Proof.
  intros Hu Hl Hc Ht Hp. rewrite POSSystem_loaded by done.
  unfold guarded, guard. rewrite Hu, Ht, Hp. simpl.
  destruct (isAdmin a); simpl.
  { split; [|done]. split; [done|]. by intros (? & _). }
  destruct (isRestaurantOwner a); simpl.
  2: { split; [|done]. split; [done|]. by intros (_ & ? & _). }
  destruct (tenantId a) as [own|]; simpl.
  2: { split; [|done]. split; [done|]. by intros (_ & _ & ? & ? & _). }
  destruct (String.eqb_spec own "") as [->|Hne]; simpl.
  { split; [|done]. split; [done|]. intros (_ & _ & own & [= <-] & ? & _).
    done. }
  destruct (decide (Some (id t) = Some own)) as [Heq|Hneq].
  - rewrite bool_decide_eq_true_2 by done. simpl. split; [|done].
    split; [done|]. intros (_ & _ & own' & [= <-] & _ & ?). congruence.
  - rewrite bool_decide_eq_false_2 by done. simpl. split; [|done].
    split; [|done]. intros _. split_and!; try done.
    exists own. split_and!; try done. congruence.
Qed.

Lemma ownership_redirect_iff_witness :
  POSSystem
    (mkAuth (Some (Auth.mkUser "u-1")) false false true None)
    (mkPage (Some "mario") (Some (mkTenant "t-B" "premium")) false false)
  = POSDashboard.
Proof.
  apply (proj2 (ownership_redirect_iff
                  (mkAuth (Some (Auth.mkUser "u-1")) false false true None)
                  (mkPage (Some "mario") (Some (mkTenant "t-B" "premium"))
                     false false)
                  (Auth.mkUser "u-1") (mkTenant "t-B" "premium")
                  eq_refl eq_refl eq_refl eq_refl eq_refl)).
  discriminate.
Defined.

End PageLaws.

(** ** pages/POSSystem.tsx: the tenant lookup of the page *)

(** Blocks of statements over any state, ending as those of the provider
    do. *)
Module Block.
Section Block.
Context {S : Type}.

Definition block : Type := S → Auth.completion * S.

Definition skip : block := λ s, (Auth.Normal, s).
Definition ret : block := λ s, (Auth.Return, s).
Definition throw (e : Auth.Err) : block := λ s, (Auth.Throw e, s).

Definition seq (a b : block) : block :=
  λ s, match a s with
       | (Auth.Normal, s') => b s'
       | r => r
       end.

Definition try_catch (body : block) (handler : Auth.Err → block) : block :=
  λ s, match body s with
       | (Auth.Throw e, s') => handler e s'
       | r => r
       end.

Definition try_finally (body fin : block) : block :=
  λ s, let '(c, s') := body s in
       let '(c', s'') := fin s' in
       (match c' with Auth.Normal => c | _ => c' end, s'').

Definition await {A} (r : outcome A Auth.Err) (k : A → block) : block :=
  match r with
  | Fulfilled a => k a
  | Rejected e => throw e
  end.

End Block.
End Block.

Module Subscription.
Import POS.

(** The page together with the error notifications it has shown, each by
    its translation key. *)
Record fx : Type := mkFx {
  page_of : page;
  toasts : list string;
}.

Definition setTenant (v : option tenant_row) : @Block.block fx :=
  λ s, (Auth.Normal,
        mkFx (mkPage (slug (page_of s)) v
                     (checkingSubscription (page_of s))
                     (loadingTimeout (page_of s)))
             (toasts s)).

Definition setCheckingSubscription (v : bool) : @Block.block fx :=
  λ s, (Auth.Normal,
        mkFx (mkPage (slug (page_of s)) (tenant (page_of s)) v
                     (loadingTimeout (page_of s)))
             (toasts s)).

Definition toast_error (key : string) : @Block.block fx :=
  λ s, (Auth.Normal, mkFx (page_of s) (toasts s ++ [key])).

(** [checkSubscription] up to its [await] of the tenant row for the slug. *)
Definition checkSubscription_begin (s : fx) : Auth.progress string * fx :=
  if negb (Auth.truthy (slug (page_of s))) then
    (Auth.Done Auth.Return,
     (Block.seq (toast_error "pos.errors.noSlug")
                (setCheckingSubscription false) s).2)
  else (Auth.Awaiting (template (slug (page_of s))), s).

(** [checkSubscription] from the settlement of the query on: the rest of
    its [try] block, its [catch] and its [finally] block. *)
Definition checkSubscription_resume
    (r : outcome (Auth.response tenant_row) Auth.Err) : @Block.block fx :=
  Block.try_finally
    (Block.try_catch
       (Block.await r (λ resp,
          match Auth.error resp with
          | Some e =>
              Block.seq (toast_error "pos.errors.tenantFetchFailed")
                        (Block.throw e)
          | None =>
              match Auth.data resp with
              | None =>
                  Block.seq (toast_error "pos.errors.tenantNotFound")
                    (Block.seq (setTenant None)
                       (Block.seq (setCheckingSubscription false) Block.ret))
              | Some tenantData => setTenant (Some tenantData)
              end
          end))
       (λ err, toast_error "pos.errors.posAccessFailed"))
    (setCheckingSubscription false).

Ltac unfold_block :=
  unfold Block.try_finally, Block.try_catch, Block.await, Block.seq,
    Block.ret, Block.skip, Block.throw, setTenant, setCheckingSubscription,
    toast_error in *;
  simpl in *.

(** The query brought a row: no error and a row. *)
Definition found (r : outcome (Auth.response tenant_row) Auth.Err)
  : option tenant_row :=
  match r with
  | Fulfilled resp =>
      match Auth.error resp with
      | Some _ => None
      | None => Auth.data resp
      end
  | Rejected _ => None
  end.

(** X18. However the tenant query of the page ends, [checkSubscription]
    ends without throwing and with [checkingSubscription] false, so the
    page never stays on its loading screen because of it.  The tenant of
    the page becomes the row found, or null when the query found none; when
    the query failed, with an error payload or by rejection, the tenant is
    left as it was.  An error payload is notified twice, by the [try] and
    by the [catch] block; a rejection and a missing row once. *)
Theorem checkSubscription_always_finishes
    (r : outcome (Auth.response tenant_row) Auth.Err) (s : fx) :
  (∀ e, (checkSubscription_resume r s).1 ≠ Auth.Throw e) ∧
  checkingSubscription (page_of (checkSubscription_resume r s).2) = false ∧
  slug (page_of (checkSubscription_resume r s).2) = slug (page_of s) ∧
  loadingTimeout (page_of (checkSubscription_resume r s).2)
  = loadingTimeout (page_of s) ∧
  tenant (page_of (checkSubscription_resume r s).2)
  = match r with
    | Fulfilled resp =>
        match Auth.error resp with
        | Some _ => tenant (page_of s)
        | None => Auth.data resp
        end
    | Rejected _ => tenant (page_of s)
    end ∧
  toasts (checkSubscription_resume r s).2
  = toasts s ++
    match r with
    | Fulfilled resp =>
        match Auth.error resp, Auth.data resp with
        | Some _, _ =>
            ["pos.errors.tenantFetchFailed"; "pos.errors.posAccessFailed"]
        | None, None => ["pos.errors.tenantNotFound"]
        | None, Some _ => []
        end
    | Rejected _ => ["pos.errors.posAccessFailed"]
    end.
Proof.
  unfold checkSubscription_resume.
  destruct r as [[[row|] [err|]]|err]; unfold_block;
    rewrite <- ?app_assoc, ?app_nil_r; done.
Qed.

(** X19. When the tenant query of a page with a slug ends without a row —
    no such tenant, an error payload, or a rejection — and no tenant was
    known before, a signed-in visitor for whom nothing is loading is shown
    the not-found view, admin or not; no redirect is made. *)
Theorem failed_lookup_shows_not_found (a : auth) (s : fx)
    (u : Auth.User) (sl : string)
    (r : outcome (Auth.response tenant_row) Auth.Err) :
  user a = Some u → loading a = false →
  slug (page_of s) = Some sl → sl ≠ "" → tenant (page_of s) = None →
  found r = None →
  POSSystem a (page_of (checkSubscription_resume r s).2) = NotFound.
Proof.
  intros Hu Hl Hs Hne Ht Hf.
  assert (page_of (checkSubscription_resume r s).2
          = mkPage (Some sl) None false (loadingTimeout (page_of s))) as ->.
  { unfold checkSubscription_resume.
    destruct r as [[[row|] [err|]]|err]; unfold_block;
      rewrite ?Hs, ?Ht; done. }
  rewrite POSSystem_loaded by done.
  unfold guarded, guard. rewrite Hu. simpl.
  by destruct (String.eqb_spec sl "").
Qed.

Lemma failed_lookup_shows_not_found_witness :
  POSSystem
    (mkAuth (Some (Auth.mkUser "u-1")) false false true None)
    (page_of
       (checkSubscription_resume (Rejected "Failed to fetch")
          (mkFx (mkPage (Some "unknown-slug") None true false) [])).2)
  = NotFound.
Proof.
  apply (failed_lookup_shows_not_found _ _ (Auth.mkUser "u-1") "unknown-slug");
    (reflexivity || discriminate).
Defined.

(** X20. Without a slug, [checkSubscription] notifies the missing slug,
    asks the backend nothing and ends the check; with no tenant known, a
    signed-in visitor for whom nothing is loading is then shown the POS
    dashboard: the not-found view needs a slug. *)
Theorem missing_slug_shows_dashboard (a : auth) (s : fx) (u : Auth.User) :
  user a = Some u → loading a = false →
  Auth.truthy (slug (page_of s)) = false → tenant (page_of s) = None →
  (checkSubscription_begin s).1 = Auth.Done Auth.Return ∧
  toasts (checkSubscription_begin s).2 = toasts s ++ ["pos.errors.noSlug"] ∧
  POSSystem a (page_of (checkSubscription_begin s).2) = POSDashboard.
Proof.
  intros Hu Hl Hs Ht. unfold checkSubscription_begin.
  rewrite Hs. unfold_block. split_and!; try done.
  rewrite POSSystem_loaded by done.
  unfold guarded, guard. simpl. by rewrite Hu, Ht, Hs.
Qed.

Lemma missing_slug_shows_dashboard_witness :
  POSSystem
    (mkAuth (Some (Auth.mkUser "u-1")) false false true None)
    (page_of
       (checkSubscription_begin (mkFx (mkPage None None true false) [])).2)
  = POSDashboard.
Proof.
  exact (proj2 (proj2
    (missing_slug_shows_dashboard
       (mkAuth (Some (Auth.mkUser "u-1")) false false true None)
       (mkFx (mkPage None None true false) []) (Auth.mkUser "u-1")
       eq_refl eq_refl eq_refl eq_refl))).
Defined.




End Subscription.

(** ** components/ErrorBoundary.tsx *)

Module ErrorBoundary.
Section ErrorBoundary.
Context {Node : Type}.

Record State : Type := mkState {
  hasError : bool;
  error : option Auth.Err;
}.

(** [fallback] is the prop when it is given and truthy. *)
Record Props : Type := mkProps {
  children : Node;
  fallback : option Node;
}.

Definition initial : State := mkState false None.

Definition getDerivedStateFromError (e : Auth.Err) : State :=
  mkState true (Some e).

(** What [render] returns: the children, the fallback of the caller, or
    the built-in message, with the details of the error in development
    mode only. *)
Inductive view : Type :=
| Children (n : Node)
| Fallback (n : Node)
| Message (details : option Auth.Err).

Definition render (mode : string) (props : Props) (st : State) : view :=
  if hasError st then
    match fallback props with
    | Some f => Fallback f
    | None =>
        Message (if String.eqb mode "development" then error st else None)
    end
  else Children (children props).

(** The state after the errors caught so far, oldest first. *)
Definition caught (errors : list Auth.Err) : State :=
  foldl (λ _ e, getDerivedStateFromError e) initial errors.

(** X21. The boundary renders its children exactly as long as no error
    was caught.  After one or more errors it renders the caller's fallback
    if there is one, else the built-in message, which carries the details
    of the latest error in development mode and none otherwise; nothing
    brings the children back. *)
Theorem boundary_never_recovers (mode : string) (props : Props)
    (errors : list Auth.Err) (e : Auth.Err) :
  render mode props (caught []) = Children (children props) ∧
  render mode props (caught (errors ++ [e]))
  = match fallback props with
    | Some f => Fallback f
    | None => Message (if String.eqb mode "development" then Some e else None)
    end.
Proof.
  split; [done|]. unfold caught. by rewrite foldl_app.
Qed.

End ErrorBoundary.
End ErrorBoundary.

(** ** The tenant of a restaurant owner, through cache, wrapper and effect *)

Module TenantFlow.
Import Auth.

(** X22. In the second form of the provider, for a restaurant owner
    without a tenant reference on the profile and with no lookup cached:
    [resolveTenant] starts the lookup through the cache; when the backend
    answers, the promise handed to [resolveTenant] settles with the row, or
    with a rejection if the answer carries an error; the wrapper, settled
    by that promise before its timer, passes the same outcome on; and
    [resolveTenant] then sets [tenantId] to the id of the row, or to null
    when there is no row, an empty id, an error or a rejection. *)
Theorem owner_tenant_flow (s : state) (p : Profile)
    (evs : list (Dedup.event (option Tenant) Err))
    (r : outcome (response Tenant) Err) :
  profile s = Some p → truthy (tenant_id p) = false →
  role p = "restaurant_owner" →
  cache s = Dedup.Sharing.run evs Dedup.Sharing.init →
  Dedup.Sharing.activeRequests (cache s) !! Effect.lookup_key p = None →
  ∃ w,
    (Effect.resolveTenant_begin s).1 = Awaiting w ∧
    Dedup.Sharing.settled
      (Dedup.Sharing.run
         [Dedup.OpSettles (length (Dedup.Sharing.invoked (cache s)))
            (Effect.lookup_result r);
          Dedup.Microtask (length (Dedup.Sharing.heap (cache s)) + 1);
          Dedup.Microtask (length (Dedup.Sharing.heap (cache s)) + 1);
          Dedup.Microtask (Effect.tenantLookupPromise w)]
         (cache (Effect.resolveTenant_begin s).2))
      (Effect.tenantLookupPromise w) (Effect.lookup_result r) ∧
    WithTimeout.wrapper
      (WithTimeout.run Effect.tenantTimeoutError
         [WithTimeout.OpSettles (Effect.lookup_result r)]
         (Effect.tenant_deadline w))
    = Settled (Effect.lookup_result r) ∧
    ∀ s',
      tenantId (Effect.resolveTenant_resume true (Effect.lookup_result r) s').2
      = match r with
        | Fulfilled resp =>
            match error resp with
            | Some _ => None
            | None => or_null (tenant_row_id <$> data resp)
            end
        | Rejected _ => None
        end.
Proof.
  intros Hp Ht Hr Hc Hk.
  destruct (Dedup.Sharing.executeRequest_first
              (Effect.lookup_key p) (Effect.lookup_fn p) (cache s) Hk eq_refl)
    as (Hq & (Hop & Hfin & _) & Hkq & _).
  unfold Effect.resolveTenant_begin. rewrite Hp, Ht, Hr. simpl.
  destruct (Dedup.Sharing.executeRequest (Effect.lookup_key p)
              (Effect.lookup_fn p) (cache s)) as [q c] eqn:Hx.
  simpl in *. subst q. eexists. split; [done|]. simpl.
  set (o := Effect.lookup_result r).
  set (d := length (Dedup.Sharing.heap (cache s))) in *.
  set (n := length (Dedup.Sharing.invoked (cache s))) in *.
  assert (Dedup.Sharing.follows c) as Hfol.
  { change c with (d + 2, c).2. rewrite <- Hx.
    apply (Dedup.Sharing.follows_step (Dedup.Call _ _)).
    rewrite Hc. apply Dedup.Sharing.follows_run, Dedup.Sharing.follows_init. }
  set (c1 := Dedup.Sharing.settle_op n o c).
  assert (Dedup.Sharing.settled c1 d o) as Hs1.
  { unfold Dedup.Sharing.settled, c1. simpl.
    rewrite list_lookup_fmap, Hop. simpl.
    unfold Dedup.Sharing.settle_cell. simpl.
    by rewrite decide_True by done. }
  assert (Dedup.Sharing.follows c1) as Hfol1
    by apply (Dedup.Sharing.follows_step (Dedup.OpSettles n o)), Hfol.
  assert (Dedup.Sharing.kind_of c1 (d + 1)
          = Some (Dedup.Sharing.KFinally d (Effect.lookup_key p) false))
    as Hk1.
  { unfold Dedup.Sharing.kind_of, c1. simpl.
    by rewrite list_lookup_fmap, Hfin. }
  assert (Dedup.Sharing.kind_of c1 (d + 2)
          = Some (Dedup.Sharing.KAsync (d + 1))) as Hk2
    by apply (Dedup.Sharing.run_kind_async [Dedup.OpSettles n o]), Hkq.
  set (c2 := Dedup.Sharing.microtask (d + 1)
               (Dedup.Sharing.microtask (d + 1) c1)).
  assert (c2 = Dedup.Sharing.run
                 [Dedup.Microtask (d + 1); Dedup.Microtask (d + 1)] c1)
    as Hc2 by done.
  assert (Dedup.Sharing.settled c2 (d + 1) o) as Hs2
    by (eapply Dedup.Sharing.microtask_finally; eauto).
  split_and!.
  - change (Dedup.Sharing.settled
              (Dedup.Sharing.microtask (d + 2) c2) (d + 2) o).
    eapply Dedup.Sharing.microtask_async; [| |exact Hs2].
    + rewrite Hc2. by apply Dedup.Sharing.follows_run.
    + rewrite Hc2. by apply Dedup.Sharing.run_kind_async.
  - simpl. by destruct o.
  - intros s'. unfold Effect.resolveTenant_resume, o, Effect.lookup_result.
    destruct r as [[dt [err|]]|err]; by unfold_stmt.
Qed.

Lemma owner_tenant_flow_witness :
  tenantId
    (Effect.resolveTenant_resume true
       (Effect.lookup_result
          (Fulfilled (mkResponse (Some (mkTenant "t-1")) None)))
       initial).2
  = Some "t-1".
Proof.
  destruct (owner_tenant_flow
              (mkState None None (Some (mkProfile "p-1" "restaurant_owner" None))
                 None false true Dedup.Sharing.init [])
              (mkProfile "p-1" "restaurant_owner" None) []
              (Fulfilled (mkResponse (Some (mkTenant "t-1")) None))
              eq_refl eq_refl eq_refl eq_refl eq_refl)
    as (w & _ & _ & _ & H).
  exact (H initial).
Defined.

End TenantFlow.
